(** * The Loadout Optimizer screen (LoadoutBuilder.tsx)

    A shallow embedding of the [LoadoutBuilder] React component of DIM:
    the items selector of [mapStateToProps], the component state and its
    [setState] handlers, the stores-stream subscription, the two
    [memoizeOne] wrappers and [render].

    Conventions.
    - A JS [number] that the file uses as an integer (hashes, power,
      stat bounds) is a [Z].
    - A JS object whose identity matters (it is compared with [===] by
      [memoizeOne]) is a [Ref]: an address together with the contents.
    - A JS object used as a dictionary with numeric keys is a [gmap Z]. *)

From Stdlib Require Import ZArith List Bool Lia.
From stdpp Require Import base option list gmap strings.
Import ListNotations.

Local Open Scope Z_scope.

(** ** Object identity *)

(** A reference to a heap object: [addr] is the identity that [===]
    compares, [deref] the contents found there. *)
Record Ref (T : Type) := mkRef { addr : positive; deref : T }.
Arguments mkRef {T} _ _.
Arguments addr {T} _.
Arguments deref {T} _.

(** [a === b] on two object references. *)
Definition sameRef {T U : Type} (a : Ref T) (b : Ref U) : bool :=
  Pos.eqb (addr a) (addr b).

(** Code that allocates threads the next free address. *)
Definition Alloc (X : Type) : Type := positive -> X * positive.

(** An object or array literal: a fresh address for the contents. *)
Definition new {T : Type} (v : T) : Alloc (Ref T) :=
  fun heap => (mkRef heap v, Pos.succ heap).

(** A thrown JS [Error]; [message] is what the error panel prints. *)
Record Error := mkError { message : string }.

(** ** Inventory data (bungie-api-ts, item-types, store-types) *)

(** [DestinyClass] of bungie-api-ts, with the numbers of the enum. *)
Inductive DestinyClass := Titan | Hunter | Warlock | Unknown.

Definition classKey (c : DestinyClass) : Z :=
  match c with Titan => 0 | Hunter => 1 | Warlock => 2 | Unknown => 3 end.

#[global] Instance DestinyClass_eq_dec : EqDecision DestinyClass.
Proof. solve_decision. Defined.

Record InventoryBucket := mkBucket { inArmor : bool; bucket_hash : Z }.

(** The socket data of an item; the component only tests its presence. *)
Definition DimSockets : Type := list Z.

(** The fields of [D2Item] that the file reads. *)
Record Item := mkItem {
  isDestiny2 : bool;
  sockets : option DimSockets;
  bucket : InventoryBucket;
  item_classType : DestinyClass;
  item_hash : Z
}.

(** The fields of [DimStore] that the file reads.  An entry of
    [store_items] may be null ([!item]). *)
Record DimStore := mkStore {
  store_id : string;
  current : bool;
  store_classType : DestinyClass;
  store_items : list (option Item)
}.

(** ** The types of ./types, d2-definitions and search-filters

    Their declarations are outside this file; the component stores the
    values and hands them to its children and to the two computations
    without looking inside. *)

(** Modelled from the spec: [ArmorSet] is declared in ./types; the
    glossary calls it a combination of one item per equipment slot for a
    given character class. *)
Definition ArmorSet : Type := list Item.

(** Modelled from the spec: [LockedItemType] is declared in ./types; the
    data model calls it a constraint descriptor, an exact item or a
    perk constraint. *)
Inductive LockedItemType :=
| LockedItem (item : Item)
| LockedPerk (perkHash : Z).

(** [lockedMap]: bucket hash to the constraints locked in that slot. *)
Abbreviation LockedMap := (gmap Z (list LockedItemType)).

(** The three stats of [StatTypes]. *)
Inductive StatTypes := Mobility | Resilience | Recovery.

#[global] Instance StatTypes_eq_dec : EqDecision StatTypes.
Proof. solve_decision. Defined.

(** [MinMax]: an inclusive range. *)
Record MinMax := mkMinMax { min : Z; max : Z }.

(** [{ [statType in StatTypes]: MinMax }]. *)
Record StatFilters := mkStatFilters {
  ofMobility : MinMax;
  ofResilience : MinMax;
  ofRecovery : MinMax
}.

Definition statFilter (f : StatFilters) (stat : StatTypes) : MinMax :=
  match stat with
  | Mobility => ofMobility f
  | Resilience => ofResilience f
  | Recovery => ofRecovery f
  end.

(** The manifest definitions object; [render] tests its presence. *)
Record D2ManifestDefinitions := mkDefs { manifestVersion : Z }.

(** The search configuration handed to [SearchFilterInput]. *)
Record SearchConfig := mkSearchConfig { keywords : list string }.

(** A compiled filter predicate. *)
Definition ItemFilter : Type := Item -> bool.

(** [SearchFilters]: the file calls [filterFunction] only.  The same
    query gives the same predicate object. *)
Record SearchFilters := mkSearchFilters {
  filterFunction : string -> Ref ItemFilter
}.

(** ** The items selector of [mapStateToProps] *)

Module Selector.

(** [items[classType][bucketHash][itemHash]]: the grouped inventory. *)
Abbreviation ItemsByClass := (gmap Z (gmap Z (gmap Z (list Item)))).

(** The hash of the ghost bucket. *)
Definition ghostBucket : Z := 4023194814.

(** The guard of the inner loop: [true] when the loop body runs,
    [false] when it takes [continue]. *)
Definition included (item : Item) : bool :=
  negb (negb (isDestiny2 item)
        || negb (bool_decide (is_Some (sockets item)))
        || (negb (inArmor (bucket item))
            && negb (Z.eqb (bucket_hash (bucket item)) ghostBucket))).

(** The classes the innermost loop ranges over. *)
Definition classTargets (c : DestinyClass) : list DestinyClass :=
  match c with
  | Unknown => [Hunter; Titan; Warlock]
  | _ => [c]
  end.

(** The body of the innermost loop: create the three levels when they
    are missing, then [push] the item. *)
Definition pushItem (item : Item) (items : ItemsByClass) (classType : DestinyClass)
  : ItemsByClass :=
  let byBucket : gmap Z (gmap Z (list Item)) :=
    default ∅ (items !! classKey classType) in
  let byHash : gmap Z (list Item) :=
    default ∅ (byBucket !! bucket_hash (bucket item)) in
  let found : list Item := default [] (byHash !! item_hash item) in
  <[classKey classType :=
      <[bucket_hash (bucket item) :=
          <[item_hash item := found ++ [item]]> byHash]> byBucket]> items.

(** One iteration of [for (const item of store.items)]. *)
Definition addItem (items : ItemsByClass) (entry : option Item) : ItemsByClass :=
  match entry with
  | None => items
  | Some item =>
      if included item
      then fold_left (pushItem item) (classTargets (item_classType item)) items
      else items
  end.

(** The result function of [itemsSelector], over the stores. *)
Definition itemsSelector (stores : list DimStore) : ItemsByClass :=
  fold_left (fun items store => fold_left addItem (store_items store) items)
            stores ∅.

(** [items[c][b][h]], with [[]] for a missing level. *)
Definition grouped (items : ItemsByClass) (c b h : Z) : list Item :=
  let byBucket : gmap Z (gmap Z (list Item)) := default ∅ (items !! c) in
  let byHash : gmap Z (list Item) := default ∅ (byBucket !! b) in
  default [] (byHash !! h).

(** Where the selector files an item of class [ct]: the keys [c] it is
    pushed under. *)
Definition filedUnder (ct : DestinyClass) (c : Z) : Prop :=
  match ct with
  | Unknown => c = classKey Hunter \/ c = classKey Titan \/ c = classKey Warlock
  | _ => c = classKey ct
  end.

(** The items of all stores, in iteration order, nulls dropped. *)
Definition allItems (stores : list DimStore) : list Item :=
  flat_map (fun store => omap (fun e => e) (store_items store)) stores.

(** The boolean form of "the selector pushes [item] at [c], [b], [h]". *)
Definition pushedAt (c b h : Z) (item : Item) : bool :=
  included item
  && existsb (fun ct => Z.eqb c (classKey ct)) (classTargets (item_classType item))
  && Z.eqb b (bucket_hash (bucket item))
  && Z.eqb h (item_hash item).

End Selector.

(** ** Props and State *)

Record Props := mkProps {
  storesLoaded : bool;
  stores : list DimStore;
  isPhonePortrait : bool;
  items : Ref Selector.ItemsByClass;
  defs : option D2ManifestDefinitions;
  searchConfig : SearchConfig;
  filters : SearchFilters
}.

Record State := mkState {
  requirePerks : bool;
  lockedMap : Ref LockedMap;
  selectedStore : option DimStore;
  statFilters : Ref StatFilters;
  minimumPower : Z;
  query : string;
  statOrder : Ref (list StatTypes)
}.

(** The argument of [setState]: the keys that are present.  For
    [selectedStore] the inner [None] is the value [undefined]. *)
Record StateUpdate := mkUpdate {
  set_requirePerks : option bool;
  set_lockedMap : option (Ref LockedMap);
  set_selectedStore : option (option DimStore);
  set_statFilters : option (Ref StatFilters);
  set_minimumPower : option Z;
  set_query : option string;
  set_statOrder : option (Ref (list StatTypes))
}.

(** [{}]: no key present. *)
Definition noUpdate : StateUpdate :=
  mkUpdate None None None None None None None.

(** React's shallow merge of an update into the state. *)
Definition merge (s : State) (u : StateUpdate) : State :=
  {| requirePerks := default (requirePerks s) (set_requirePerks u);
     lockedMap := default (lockedMap s) (set_lockedMap u);
     selectedStore := default (selectedStore s) (set_selectedStore u);
     statFilters := default (statFilters s) (set_statFilters u);
     minimumPower := default (minimumPower s) (set_minimumPower u);
     query := default (query s) (set_query u);
     statOrder := default (statOrder s) (set_statOrder u) |}.

(** The two forms of [setState]: an object, or a function of the state
    React holds when it applies the update. *)
Inductive Update :=
| UpdateObject (u : StateUpdate)
| UpdateFunction (f : State -> Alloc StateUpdate).

(** When React applies a [setState]: before [setState] returns, as
    React 16 does for a call made outside its own event handlers and
    lifecycle methods (a stream callback), or after the running handler
    has returned, as it does inside them. *)
Inductive Mode := Immediate | Batched.

(** The component instance as the handlers see it: [this.state], the
    updates React has queued, and the next free heap address. *)
Record Cell := mkCell {
  this_state : State;
  pending : list Update;
  heap : positive
}.

(** React applying one update. *)
Definition applyUpdate (c : Cell) (u : Update) : Cell :=
  match u with
  | UpdateObject o =>
      mkCell (merge (this_state c) o) (pending c) (heap c)
  | UpdateFunction f =>
      let '(o, heap') := f (this_state c) (heap c) in
      mkCell (merge (this_state c) o) (pending c) heap'
  end.

(** [this.setState(u)]. *)
Definition setState (mode : Mode) (u : Update) (c : Cell) : Cell :=
  match mode with
  | Immediate => applyUpdate c u
  | Batched => mkCell (this_state c) (pending c ++ [u]) (heap c)
  end.

(** React applying the queued updates, in order, when the handler has
    returned. *)
Definition flush (c : Cell) : Cell :=
  fold_left applyUpdate (pending c) (mkCell (this_state c) [] (heap c)).

(** A component with no update queued. *)
Definition idle (s : State) (heap : positive) : Cell := mkCell s [] heap.

(** Running a handler to completion: the handler, then React's flush. *)
Definition dispatch (handler : Cell -> Cell) (s : State) (heap : positive) : Cell :=
  flush (handler (idle s heap)).

(** ** The constructor and the handlers *)

(** The object literal of the default stat filters. *)
Definition defaultStatFilters : StatFilters :=
  {| ofMobility := mkMinMax 0 10;
     ofResilience := mkMinMax 0 10;
     ofRecovery := mkMinMax 0 10 |}.

(** [constructor]: the initial state. *)
Definition constructor : Alloc State :=
  fun heap =>
    let '(lockedMap0, heap) := new (∅ : LockedMap) heap in
    let '(statFilters0, heap) := new defaultStatFilters heap in
    let '(statOrder0, heap) := new [Resilience; Recovery; Mobility] heap in
    ({| requirePerks := true;
        lockedMap := lockedMap0;
        selectedStore := None;
        statFilters := statFilters0;
        minimumPower := 0;
        query := ""%string;
        statOrder := statOrder0 |}, heap).

(** [stores.find((s) => s.current)]. *)
Definition findCurrent (stores : list DimStore) : option DimStore :=
  find current stores.

(** [stores.find((s) => s.id === id)]. *)
Definition findById (id : string) (stores : list DimStore) : option DimStore :=
  find (fun s => String.eqb (store_id s) id) stores.

(** The object that [onCharacterChanged] hands to [setState]. *)
Definition characterChange (props : Props) (storeId : string) : Alloc StateUpdate :=
  fun heap =>
    let selectedStore := findById storeId (stores props) in
    let '(lockedMap0, heap) := new (∅ : LockedMap) heap in
    let '(statFilters0, heap) := new defaultStatFilters heap in
    ({| set_requirePerks := Some true;
        set_lockedMap := Some lockedMap0;
        set_selectedStore := Some selectedStore;
        set_statFilters := Some statFilters0;
        set_minimumPower := Some 0;
        set_query := None;
        set_statOrder := None |}, heap).

(** [onCharacterChanged]. *)
Definition onCharacterChanged (props : Props) (mode : Mode) (storeId : string)
    (c : Cell) : Cell :=
  let '(u, heap') := characterChange props storeId (heap c) in
  setState mode (UpdateObject u) (mkCell (this_state c) (pending c) heap').

(** [setRequiredPerks]. *)
Definition setRequiredPerks (mode : Mode) (c : Cell) : Cell :=
  setState mode
    (UpdateObject (mkUpdate (Some false) None None None None None None)) c.

(** [onStatFiltersChanged]. *)
Definition onStatFiltersChanged (mode : Mode) (statFilters : Ref StatFilters)
    (c : Cell) : Cell :=
  setState mode
    (UpdateObject (mkUpdate None None None (Some statFilters) None None None)) c.

(** [onMinimumPowerChanged]. *)
Definition onMinimumPowerChanged (mode : Mode) (minimumPower : Z) (c : Cell) : Cell :=
  setState mode
    (UpdateObject (mkUpdate None None None None (Some minimumPower) None None)) c.

(** [onQueryChanged]. *)
Definition onQueryChanged (mode : Mode) (query : string) (c : Cell) : Cell :=
  setState mode
    (UpdateObject (mkUpdate None None None None None (Some query) None)) c.

(** [onStatOrderChanged]. *)
Definition onStatOrderChanged (mode : Mode) (statOrder : Ref (list StatTypes))
    (c : Cell) : Cell :=
  setState mode
    (UpdateObject (mkUpdate None None None None None None (Some statOrder))) c.

(** [onLockedMapChanged]. *)
Definition onLockedMapChanged (mode : Mode) (lockedMap : Ref LockedMap)
    (c : Cell) : Cell :=
  setState mode
    (UpdateObject (mkUpdate None (Some lockedMap) None None None None None)) c.

(** [updateLockedArmor]: the spread copies the locked map into a new
    object with [bucket.hash] overwritten. *)
Definition updateLockedArmor (mode : Mode) (bucket : InventoryBucket)
    (locked : list LockedItemType) (c : Cell) : Cell :=
  setState mode
    (UpdateFunction (fun state heap =>
       let '(lockedMap', heap) :=
         new (<[bucket_hash bucket := locked]> (deref (lockedMap state))) heap in
       (mkUpdate None (Some lockedMap') None None None None None, heap))) c.

(** What a JS callback leaves behind: the component, and the exception
    when one escaped. *)
Definition Outcome : Type := Cell * option Error.

(** Reading a property of [undefined]. *)
Definition typeError (property : string) : Error :=
  mkError ("Cannot read property '" ++ property ++ "' of undefined")%string.

(** The callback that [componentDidMount] subscribes to the stores
    stream. *)
Definition onStores (props : Props) (mode : Mode)
    (snapshot : option (list DimStore)) (c : Cell) : Outcome :=
  match snapshot with
  | None => (c, None)
  | Some stores =>
      let c := setState mode
                 (UpdateObject
                    (mkUpdate None None (Some (findCurrent stores)) None None None None))
                 c in
      match selectedStore (this_state c) with
      | None =>
          match findCurrent stores with
          | None => (c, Some (typeError "id"))
          | Some cur => (onCharacterChanged props mode (store_id cur) c, None)
          end
      | Some selected =>
          let selectedStore := findById (store_id selected) stores in
          (setState mode
             (UpdateObject
                (mkUpdate None None (Some selectedStore) None None None None))
             c, None)
      end
  end.

(** ** What the handlers are to keep *)

(** An inclusive range within 0 to 10. *)
Definition rangeOk (r : MinMax) : Prop := 0 <= min r /\ min r <= max r /\ max r <= 10.

(** A priority order: the three stats, each once. *)
Definition orderOk (order : list StatTypes) : Prop :=
  NoDup order /\ order ≡ₚ [Mobility; Resilience; Recovery].

Definition wellFormed (s : State) : Prop :=
  (forall stat, rangeOk (statFilter (deref (statFilters s)) stat)) /\
  orderOk (deref (statOrder s)).

(** The state with another selected store. *)
Definition selecting (s : State) (sel : option DimStore) : State :=
  merge s (mkUpdate None None (Some sel) None None None None).

(** The stream callback run to completion. *)
Definition deliver (props : Props) (mode : Mode) (snapshot : option (list DimStore))
    (s : State) (heap : positive) : State :=
  this_state (dispatch (fun c => fst (onStores props mode snapshot c)) s heap).

(** ** memoizeOne *)

(** Whether a call returned rather than threw. *)
Definition returns {X : Type} (r : Error + X) : bool :=
  match r with inl _ => false | inr _ => true end.

Section MemoizeOne.

Context {A R : Type}.

(** The equality on argument lists, and the wrapped function.  The
    wrapped function is given on the contents of its arguments; the
    array it returns is a new object at each call. *)
Variable isEqual : A -> A -> bool.
Variable resultFn : A -> Error + R.

(** Modelled from the spec: what the [memoizeOne] wrapper remembers,
    the arguments and the result of one call ([lastArgs] and
    [lastResult]), and nothing before the first call that returned. *)
Definition MemoCell : Type := option (A * Ref R).

(** One call of the wrapper: what it returned or threw, what it
    remembers afterwards, the heap, and whether it called [resultFn]. *)
Record Called := mkCalled {
  returned : Error + Ref R;
  remembered : MemoCell;
  heap_after : positive;
  invoked : bool
}.

(** Modelled from the spec: the [memoizeOne] wrapper calling the wrapped
    function and keeping its result "against the latest-call
    arguments".  An exception leaves the wrapper before it has stored
    anything. *)
Definition callThrough (cell : MemoCell) (newArgs : A) (heap : positive) : Called :=
  match resultFn newArgs with
  | inl e => mkCalled (inl e) cell heap true
  | inr v =>
      let '(lastResult, heap') := new v heap in
      mkCalled (inr lastResult) (Some (newArgs, lastResult)) heap' true
  end.

(** Modelled from the spec: [memoizeOne] comes from the memoize-one
    package, which is not part of this file.  The spec has the results
    "memoized against their latest-call arguments" and re-run only when
    the input changes "by reference, not deep-equality": the wrapper
    keeps the arguments and the result of one call, answers from them
    when the new arguments are equal to the kept ones, and calls the
    wrapped function otherwise.  A call that throws has no result to
    keep, so what is kept stays as it was (the package documents it so:
    a throw does not touch the existing cache). *)
Definition memoized (cell : MemoCell) (newArgs : A) (heap : positive) : Called :=
  match cell with
  | Some (lastArgs, lastResult) =>
      if isEqual newArgs lastArgs
      then mkCalled (inr lastResult) cell heap false
      else callThrough cell newArgs heap
  | None => callThrough cell newArgs heap
  end.

(** A sequence of calls of one wrapper: each call with its arguments. *)
Fixpoint calls (cell : MemoCell) (heap : positive) (argss : list A)
  : list (A * Called) :=
  match argss with
  | [] => []
  | newArgs :: rest =>
      let c := memoized cell newArgs heap in
      (newArgs, c) :: calls (remembered c) (heap_after c) rest
  end.

(** The arguments of the latest call of a trace. *)
Definition latestCall (trace : list (A * Called)) : option A :=
  fold_left (fun _ '(a, _) => Some a) trace None.

(** The arguments of the latest call of a trace that returned a result. *)
Definition latestReturned (trace : list (A * Called)) : option A :=
  fold_left (fun acc '(a, c) => if returns (returned c) then Some a else acc)
            trace None.

(** What the wrapper remembers, and the heap, after a trace. *)
Definition cellAfter (cell : MemoCell) (trace : list (A * Called)) : MemoCell :=
  fold_left (fun _ '(_, c) => remembered c) trace cell.

Definition heapAfter (heap : positive) (trace : list (A * Called)) : positive :=
  fold_left (fun _ '(_, c) => heap_after c) trace heap.

(** The wrapped function cannot tell apart two argument lists of
    [argss] that the wrapper takes for equal: no object among them was
    changed in place, nor replaced at the same address. *)
Definition stable (argss : list A) : Prop :=
  forall a b, In a argss -> In b argss -> isEqual a b = true ->
              resultFn a = resultFn b.

(** What a wrapper that started empty remembers after a trace: the
    arguments of one of the calls, equal under [isEqual] to those of the
    latest call that returned, with the result of the function there. *)
Definition remembers (cell : MemoCell) (trace : list (A * Called)) : Prop :=
  match cell with
  | None => latestReturned trace = None
  | Some (b0, r) =>
      (exists b, latestReturned trace = Some b /\ isEqual b b0 = true) /\
      In b0 (map fst trace) /\
      resultFn b0 = inr (deref r)
  end.

(** The wrapper does not answer from what it remembers. *)
Definition misses (cell : MemoCell) (a : A) : Prop :=
  match cell with Some (b, _) => isEqual a b = false | None => True end.

(** The three ways a call of the wrapper can go. *)
Inductive CallCase (cell : MemoCell) (a : A) (heap : positive)
  : Called -> Prop :=
| CallHit b r :
    cell = Some (b, r) -> isEqual a b = true ->
    CallCase cell a heap (mkCalled (inr r) cell heap false)
| CallThrows e :
    misses cell a -> resultFn a = inl e ->
    CallCase cell a heap (mkCalled (inl e) cell heap true)
| CallReturns v :
    misses cell a -> resultFn a = inr v ->
    CallCase cell a heap
      (mkCalled (inr (mkRef heap v)) (Some (a, mkRef heap v)) (Pos.succ heap) true).

End MemoizeOne.

Arguments MemoCell : clear implicits.
Arguments Called : clear implicits.

(** What the caller observes of a call, identity of the result apart. *)
Definition observed {R : Type} (r : Error + Ref R) : Error + R :=
  match r with inl e => inl e | inr x => inr (deref x) end.

(** ** The two computations and their wrappers *)

(** The argument list of a [computeSetsMemoized] call. *)
Record ComputeArgs := mkComputeArgs {
  arg_items : Ref Selector.ItemsByClass;
  arg_classType : DestinyClass;
  arg_requirePerks : bool;
  arg_lockedMap : Ref LockedMap;
  arg_filter : Ref ItemFilter
}.

(** The argument list of a [filterSetsMemoized] call. *)
Record FilterArgs := mkFilterArgs {
  arg_sets : Ref (list ArmorSet);
  arg_minimumPower : Z;
  arg_locked : Ref LockedMap;
  arg_statFilters : Ref StatFilters;
  arg_statOrder : Ref (list StatTypes)
}.

(** [areInputsEqual] of memoize-one on the two argument lists: [===]
    position by position, identity for objects and value for numbers
    and booleans. *)
Definition computeArgsEqual (a b : ComputeArgs) : bool :=
  sameRef (arg_items a) (arg_items b)
  && bool_decide (arg_classType a = arg_classType b)
  && Bool.eqb (arg_requirePerks a) (arg_requirePerks b)
  && sameRef (arg_lockedMap a) (arg_lockedMap b)
  && sameRef (arg_filter a) (arg_filter b).

Definition filterArgsEqual (a b : FilterArgs) : bool :=
  sameRef (arg_sets a) (arg_sets b)
  && Z.eqb (arg_minimumPower a) (arg_minimumPower b)
  && sameRef (arg_locked a) (arg_locked b)
  && sameRef (arg_statFilters a) (arg_statFilters b)
  && sameRef (arg_statOrder a) (arg_statOrder b).

(** The signatures of [computeSets] (./process) and
    [filterGeneratedSets] (./generated-sets/utils), on the contents of
    their arguments; [inl] is a thrown exception. *)
Definition ComputeSets : Type :=
  Selector.ItemsByClass -> DestinyClass -> bool -> LockedMap -> ItemFilter ->
  Error + list ArmorSet.

Definition FilterGeneratedSets : Type :=
  list ArmorSet -> Z -> LockedMap -> StatFilters -> list StatTypes ->
  Error + list ArmorSet.

(** A call of the underlying functions, as the instrumented [render]
    below records it: the arguments and whether the call returned. *)
Inductive Invocation :=
| ComputeSetsCalled (args : ComputeArgs) (ok : bool)
| FilterGeneratedSetsCalled (args : FilterArgs) (ok : bool).

(** What [render] reads and writes besides props and state: the two
    wrappers of the instance, the heap, the console, and the record of
    the calls of the underlying functions. *)
Record Env := mkEnv {
  computeSetsMemoized : MemoCell ComputeArgs (list ArmorSet);
  filterSetsMemoized : MemoCell FilterArgs (list ArmorSet);
  env_heap : positive;
  console : list Error;
  invocations : list Invocation
}.

(** The wrappers of a new instance. *)
Definition newEnv (heap : positive) : Env := mkEnv None None heap [] [].

(** ** The rendered output *)

Record CharacterSelectProps := mkCharacterSelect {
  cs_selectedStore : DimStore;
  cs_stores : list DimStore;
  cs_vertical : bool;
  cs_isPhonePortrait : bool
}.

Record FilterBuildsProps := mkFilterBuilds {
  fb_sets : list ArmorSet;
  fb_selectedStore : DimStore;
  fb_minimumPower : Z;
  fb_stats : StatFilters;
  fb_defs : D2ManifestDefinitions;
  fb_order : list StatTypes
}.

Record LockArmorAndPerksProps := mkLockArmorAndPerks {
  la_items : Selector.ItemsByClass;
  la_selectedStore : DimStore;
  la_lockedMap : LockedMap
}.

(** [menuContent]. *)
Record MenuContent := mkMenuContent {
  searchFilterInput : SearchConfig * string;
  filterBuilds : FilterBuildsProps;
  lockArmorAndPerks : LockArmorAndPerksProps
}.

(** The menu column after [CharacterSelect]. *)
Inductive Menu :=
| Collapsible (sectionId title : string) (content : MenuContent)
| Inline (content : MenuContent).

Definition menuContentOf (m : Menu) : MenuContent :=
  match m with Collapsible _ _ c => c | Inline c => c end.

(** The three alternatives of [PageWithMenu.Contents]. *)
Inductive Contents :=
| ErrorPanel (title message : string)
| NoBuildsFound (heading button : string)
| GeneratedSets (sets : list ArmorSet) (lockedMap : LockedMap)
    (selectedStore : DimStore) (defs : D2ManifestDefinitions)
    (statOrder : list StatTypes).

(** What [render] returns. *)
Inductive View :=
| Loading
| Page (characterSelect : CharacterSelectProps) (menu : Menu) (contents : Contents).

(** The set lists that a rendered output hands to its children. *)
Definition shownSets (v : View) : list (list ArmorSet) :=
  match v with
  | Loading => []
  | Page _ menu contents =>
      fb_sets (filterBuilds (menuContentOf menu))
      :: match contents with
         | GeneratedSets sets _ _ _ _ => [sets]
         | _ => []
         end
  end.

(** The [GeneratedSets] element of the output, when there is one. *)
Definition generatedSetsOf (v : View) : option (list ArmorSet) :=
  match v with
  | Page _ _ (GeneratedSets sets _ _ _ _) => Some sets
  | _ => None
  end.

Definition contentsOf (v : View) : option Contents :=
  match v with
  | Loading => None
  | Page _ _ contents => Some contents
  end.

(** ** render *)

Section Render.

Variable computeSets : ComputeSets.
Variable filterGeneratedSets : FilterGeneratedSets.

(** The underlying functions on an argument list. *)
Definition computeSetsOn (a : ComputeArgs) : Error + list ArmorSet :=
  computeSets (deref (arg_items a)) (arg_classType a) (arg_requirePerks a)
              (deref (arg_lockedMap a)) (deref (arg_filter a)).

Definition filterGeneratedSetsOn (a : FilterArgs) : Error + list ArmorSet :=
  filterGeneratedSets (deref (arg_sets a)) (arg_minimumPower a)
                      (deref (arg_locked a)) (deref (arg_statFilters a))
                      (deref (arg_statOrder a)).

(** [store]: the selected store, else the current one. *)
Definition storeOf (props : Props) (state : State) : option DimStore :=
  match selectedStore state with
  | Some store => Some store
  | None => findCurrent (stores props)
  end.

(** The arguments [render] passes to [computeSetsMemoized]. *)
Definition computeArgsOf (props : Props) (state : State) (store : DimStore)
  : ComputeArgs :=
  {| arg_items := items props;
     arg_classType := store_classType store;
     arg_requirePerks := requirePerks state;
     arg_lockedMap := lockedMap state;
     arg_filter := filterFunction (filters props) (query state) |}.

(** The arguments [render] passes to [filterSetsMemoized]. *)
Definition filterArgsOf (state : State) (processedSets : Ref (list ArmorSet))
  : FilterArgs :=
  {| arg_sets := processedSets;
     arg_minimumPower := minimumPower state;
     arg_locked := lockedMap state;
     arg_statFilters := statFilters state;
     arg_statOrder := statOrder state |}.

(** The three locals after the [try] statement, and what it left. *)
Record Attempt := mkAttempt {
  processedSets : list ArmorSet;
  filteredSets : list ArmorSet;
  processError : option Error;
  env_after : Env
}.

(** The record of a wrapper call, when it reached the function. *)
Definition noteCompute (c : Called ComputeArgs (list ArmorSet)) (a : ComputeArgs)
  : list Invocation :=
  if invoked c then [ComputeSetsCalled a (returns (returned c))] else [].

Definition noteFilter (c : Called FilterArgs (list ArmorSet)) (a : FilterArgs)
  : list Invocation :=
  if invoked c
  then [FilterGeneratedSetsCalled a (returns (returned c))] else [].

(** The [try] statement with its [catch]. *)
Definition attempt (props : Props) (state : State) (store : DimStore) (env : Env)
  : Attempt :=
  let cArgs := computeArgsOf props state store in
  let c := memoized computeArgsEqual computeSetsOn
                    (computeSetsMemoized env) cArgs (env_heap env) in
  let noted := invocations env ++ noteCompute c cArgs in
  match returned c with
  | inl e =>
      mkAttempt [] [] (Some e)
        (mkEnv (remembered c) (filterSetsMemoized env) (heap_after c)
               (console env ++ [e]) noted)
  | inr processed =>
      let fArgs := filterArgsOf state processed in
      let f := memoized filterArgsEqual filterGeneratedSetsOn
                        (filterSetsMemoized env) fArgs (heap_after c) in
      let noted := noted ++ noteFilter f fArgs in
      match returned f with
      | inl e =>
          mkAttempt (deref processed) [] (Some e)
            (mkEnv (remembered c) (remembered f) (heap_after f)
                   (console env ++ [e]) noted)
      | inr filtered =>
          mkAttempt (deref processed) (deref filtered) None
            (mkEnv (remembered c) (remembered f) (heap_after f)
                   (console env) noted)
      end
  end.

(** [menuContent]. *)
Definition menuContent (props : Props) (state : State) (store : DimStore)
    (defs : D2ManifestDefinitions) (processedSets : list ArmorSet) : MenuContent :=
  {| searchFilterInput := (searchConfig props, "LoadoutBuilder.SearchPlaceholder"%string);
     filterBuilds :=
       {| fb_sets := processedSets;
          fb_selectedStore := store;
          fb_minimumPower := minimumPower state;
          fb_stats := deref (statFilters state);
          fb_defs := defs;
          fb_order := deref (statOrder state) |};
     lockArmorAndPerks :=
       {| la_items := deref (items props);
          la_selectedStore := store;
          la_lockedMap := deref (lockedMap state) |} |}.

(** The alternative shown in [PageWithMenu.Contents]; a caught [Error]
    object is truthy. *)
Definition contents (state : State) (store : DimStore)
    (defs : D2ManifestDefinitions) (a : Attempt) : Contents :=
  match processError a with
  | Some e => ErrorPanel "ErrorBoundary.Title" (message e)
  | None =>
      if (Nat.eqb (length (processedSets a)) 0 && requirePerks state)%bool
      then NoBuildsFound "LoadoutBuilder.NoBuildsFound" "LoadoutBuilder.RequirePerks"
      else GeneratedSets (filteredSets a) (deref (lockedMap state)) store defs
                         (deref (statOrder state))
  end.

(** The page built after the [try] statement. *)
Definition page (props : Props) (state : State) (store : DimStore)
    (defs : D2ManifestDefinitions) (a : Attempt) : View :=
  let menu := menuContent props state store defs (processedSets a) in
  Page {| cs_selectedStore := store;
          cs_stores := stores props;
          cs_vertical := negb (isPhonePortrait props);
          cs_isPhonePortrait := isPhonePortrait props |}
       (if isPhonePortrait props
        then Collapsible "lb-filter" "LoadoutBuilder.Filter" menu
        else Inline menu)
       (contents state store defs a).

(** [render]: the output, or the exception that leaves it, and the
    environment afterwards. *)
Definition render (props : Props) (state : State) (env : Env)
  : (Error + View) * Env :=
  match storesLoaded props, defs props with
  | true, Some defs =>
      match storeOf props state with
      | None => (inl (typeError "classType"), env)
      | Some store =>
          match deref (items props) !! classKey (store_classType store) with
          | None => (inr Loading, env)
          | Some _ =>
              let a := attempt props state store env in
              (inr (page props state store defs a), env_after a)
          end
      end
  | _, _ => (inr Loading, env)
  end.

(** A sequence of renders of one instance, each with the props and the
    state of its time. *)
Definition renders (inputs : list (Props * State)) (env : Env) : Env :=
  fold_left (fun env '(props, state) => snd (render props state env)) inputs env.

End Render.

(** The arguments of the latest call of [computeSets] that returned,
    in a record of calls. *)
Definition latestComputeReturned (log : list Invocation) : option ComputeArgs :=
  fold_left (fun acc i => match i with
                          | ComputeSetsCalled a true => Some a
                          | _ => acc
                          end) log None.

(** The same for [filterGeneratedSets]. *)
Definition latestFilterReturned (log : list Invocation) : option FilterArgs :=
  fold_left (fun acc i => match i with
                          | FilterGeneratedSetsCalled a true => Some a
                          | _ => acc
                          end) log None.

(** A render in which one of the two computations threw: the record of
    calls grew by a call that did not return. *)
Definition threwIn (before after : Env) : Prop :=
  exists delta, invocations after = invocations before ++ delta /\
    ((exists a, In (ComputeSetsCalled a false) delta) \/
     (exists a, In (FilterGeneratedSetsCalled a false) delta)).

(** ** The stores stream and the component lifecycle *)

(** Modelled from the spec: [getStoresStream] belongs to
    d2-stores.service and [Subscription] to rxjs, neither of which is
    part of this file.  The spec has the component subscribe to "a
    single external asynchronous stream" and unsubscribe on teardown,
    "acquire on mount, release on unmount": a subscription is a handle
    that the stream hands out and keeps active until it is released. *)
Definition Subscription : Type := nat.

(** Modelled from the spec: the stores stream, as far as
    subscriptions go: how many were handed out (the next handle), and
    which of them are active. *)
Record StoresStream := mkStream {
  handedOut : nat;
  active : gset nat
}.

(** Modelled from the spec: [getStoresStream(account).subscribe(callback)]
    acquires a new subscription, which is then active. *)
Definition subscribe (stream : StoresStream) : Subscription * StoresStream :=
  (handedOut stream,
   mkStream (S (handedOut stream)) ({[handedOut stream]} ∪ active stream)).

(** Modelled from the spec: [subscription.unsubscribe()] releases the
    subscription; a second call changes nothing. *)
Definition unsubscribe (sub : Subscription) (stream : StoresStream) : StoresStream :=
  mkStream (handedOut stream) (active stream ∖ {[sub]}).

(** The mounted instance: props, state with React's queue, and the
    private field [storesSubscription]. *)
Record Component := mkComponent {
  props_of : Props;
  cell : Cell;
  storesSubscription : option Subscription
}.

(** A new instance: [constructor] has run, nothing is subscribed. *)
Definition instantiate (props : Props) (heap : positive) : Component :=
  let '(state, heap) := constructor heap in
  mkComponent props (idle state heap) None.

(** [componentDidMount]. *)
Definition componentDidMount (w : Component * StoresStream)
  : Component * StoresStream :=
  let '(comp, stream) := w in
  let '(sub, stream) := subscribe stream in
  (mkComponent (props_of comp) (cell comp) (Some sub), stream).

(** [componentWillUnmount]; calling [unsubscribe] on a field that was
    never assigned throws. *)
Definition componentWillUnmount (w : Component * StoresStream)
  : Component * StoresStream * option Error :=
  let '(comp, stream) := w in
  match storesSubscription comp with
  | None => (comp, stream, Some (typeError "unsubscribe"))
  | Some sub => (comp, unsubscribe sub stream, None)
  end.

(** What happens to a mounted instance between mount and unmount. *)
Inductive Event :=
| StoresEmitted (mode : Mode) (snapshot : option (list DimStore))
| StreamClosed
| PropsChanged (props : Props)
| CharacterChanged (storeId : string)
| RequirePerksRelaxed
| StatFiltersChanged (statFilters : Ref StatFilters)
| MinimumPowerChanged (minimumPower : Z)
| QueryChanged (query : string)
| StatOrderChanged (statOrder : Ref (list StatTypes))
| LockedMapChanged (lockedMap : Ref LockedMap)
| LockedArmorUpdated (bucket : InventoryBucket) (locked : list LockedItemType).

(** The handler of a user event; React runs it inside a batch. *)
Definition handlerOf (props : Props) (e : Event) (c : Cell) : Cell :=
  match e with
  | CharacterChanged storeId => onCharacterChanged props Batched storeId c
  | RequirePerksRelaxed => setRequiredPerks Batched c
  | StatFiltersChanged f => onStatFiltersChanged Batched f c
  | MinimumPowerChanged p => onMinimumPowerChanged Batched p c
  | QueryChanged q => onQueryChanged Batched q c
  | StatOrderChanged o => onStatOrderChanged Batched o c
  | LockedMapChanged m => onLockedMapChanged Batched m c
  | LockedArmorUpdated b l => updateLockedArmor Batched b l c
  | _ => c
  end.

(** One event on a mounted instance.  The stream calls the callback
    only for an active subscription; [StreamClosed] is the stream
    ending the subscription on its own account (completion, or an
    exception that escaped the callback). *)
Definition step (w : Component * StoresStream) (e : Event)
  : Component * StoresStream :=
  let '(comp, stream) := w in
  match e with
  | StoresEmitted mode snapshot =>
      match storesSubscription comp with
      | Some sub =>
          if bool_decide (sub ∈ active stream)
          then (mkComponent (props_of comp)
                  (flush (fst (onStores (props_of comp) mode snapshot (cell comp))))
                  (storesSubscription comp), stream)
          else w
      | None => w
      end
  | StreamClosed =>
      match storesSubscription comp with
      | Some sub => (comp, unsubscribe sub stream)
      | None => w
      end
  | PropsChanged props =>
      (mkComponent props (cell comp) (storesSubscription comp), stream)
  | _ =>
      (mkComponent (props_of comp)
         (flush (handlerOf (props_of comp) e (cell comp)))
         (storesSubscription comp), stream)
  end.

(** The life of one instance on a stream: mount, the events, unmount. *)
Definition lifecycle (props : Props) (heap : positive) (events : list Event)
    (stream : StoresStream) : Component * StoresStream * option Error :=
  componentWillUnmount
    (fold_left step events (componentDidMount (instantiate props heap, stream))).

(** What the events between mount and unmount keep: the field holds the
    handle obtained at mount, no further handle was handed out, and the
    other subscriptions of the stream are as they were. *)
Definition mountedOn (stream : StoresStream) (w : Component * StoresStream) : Prop :=
  storesSubscription (fst w) = Some (handedOut stream) /\
  handedOut (snd w) = S (handedOut stream) /\
  active (snd w) ∖ {[handedOut stream]} = active stream ∖ {[handedOut stream]}.

(** ** What a sequence of renders is to keep *)



Definition isComputeCall (i : Invocation) : bool :=
  match i with ComputeSetsCalled _ _ => true | _ => false end.

Definition isFilterCall (i : Invocation) : bool :=
  match i with FilterGeneratedSetsCalled _ _ => true | _ => false end.


(** No set list at all in a rendered output: every list handed to a
    child is empty. *)
Definition showsNoSets (v : View) : Prop :=
  Forall (fun sets : list ArmorSet => sets = []) (shownSets v).

Section RenderInvariant.

Variable computeSets : ComputeSets.
Variable filterGeneratedSets : FilterGeneratedSets.

(** Argument lists that [render] built from one of the inputs. *)
Definition fromInputsC (inputs : list (Props * State)) (a : ComputeArgs) : Prop :=
  exists p s store, In (p, s) inputs /\ a = computeArgsOf p s store.

Definition fromInputsF (inputs : list (Props * State)) (a : FilterArgs) : Prop :=
  exists p s r, In (p, s) inputs /\ a = filterArgsOf s r.

(** What holds of the environment after the renders of [inputs]: each
    wrapper remembers a result of its function, on arguments of one of
    the renders, allocated below the next free address; the sets the
    filter wrapper remembers are the array the compute wrapper
    remembers when they sit at its address; and each wrapper remembers
    the arguments of the latest recorded call that returned. *)
Record EnvOk (inputs : list (Props * State)) (env : Env) : Prop := mkEnvOk {
  ok_compute : forall ac rc, computeSetsMemoized env = Some (ac, rc) ->
     computeSetsOn computeSets ac = inr (deref rc) /\
     (addr rc < env_heap env)%positive /\ fromInputsC inputs ac;
  ok_filter : forall af rf, filterSetsMemoized env = Some (af, rf) ->
     filterGeneratedSetsOn filterGeneratedSets af = inr (deref rf) /\
     (addr (arg_sets af) < env_heap env)%positive /\ fromInputsF inputs af;
  ok_link : forall ac rc af rf,
     computeSetsMemoized env = Some (ac, rc) ->
     filterSetsMemoized env = Some (af, rf) ->
     addr (arg_sets af) = addr rc -> arg_sets af = rc;
  ok_logC : fst <$> computeSetsMemoized env = latestComputeReturned (invocations env);
  ok_logF : fst <$> filterSetsMemoized env = latestFilterReturned (invocations env)
}.

End RenderInvariant.

(** ** A concrete account *)

Module Scenario.

Definition helmet : Item :=
  mkItem true (Some [11; 12]) (mkBucket true 3448274439) Hunter 1001.

(** A ghost shell: no class, the ghost bucket. *)
Definition ghost : Item :=
  mkItem true (Some [21]) (mkBucket false 4023194814) Unknown 2002.

(** A weapon: not in an armor bucket. *)
Definition rifle : Item :=
  mkItem true (Some [31]) (mkBucket false 1498876634) Unknown 3003.

Definition hunter : DimStore :=
  mkStore "hunter" true Hunter [Some helmet; None; Some ghost; Some rifle].

Definition warlock : DimStore :=
  mkStore "warlock" false Warlock [].

(** The same two characters in a later snapshot: the hunter has lost
    the rifle. *)
Definition hunter' : DimStore :=
  mkStore "hunter" true Hunter [Some helmet; Some ghost].

Definition warlock' : DimStore :=
  mkStore "warlock" false Warlock [Some ghost].

Definition snapshot' : list DimStore := [hunter'; warlock'].

Definition props0 : Props :=
  {| storesLoaded := true;
     stores := [hunter; warlock];
     isPhonePortrait := false;
     items := mkRef 1%positive (Selector.itemsSelector [hunter; warlock]);
     defs := Some (mkDefs 1);
     searchConfig := mkSearchConfig [];
     filters := mkSearchFilters (fun _ => mkRef 2%positive (fun _ => true)) |}.

(** The state of a new instance. *)
Definition state0 : State := fst (constructor 10%positive).

(** The same with the warlock selected. *)
Definition stateW : State := selecting state0 (Some warlock).

(** The arguments of [computeSets] at [props0] and [state0]. *)
Definition args0 : ComputeArgs := computeArgsOf props0 state0 hunter.

Definition oneSet : list ArmorSet := [[helmet]].

(** A [computeSets] that returns one set, and one that throws. *)
Definition computeOne : ComputeSets := fun _ _ _ _ _ => inr oneSet.

Definition computeThrows : ComputeSets :=
  fun _ _ _ _ _ => inl (mkError "no sets").

(** A [filterGeneratedSets] that keeps every set, and one that throws. *)
Definition filterAll : FilterGeneratedSets := fun sets _ _ _ _ => inr sets.

Definition filterThrows : FilterGeneratedSets :=
  fun _ _ _ _ _ => inl (mkError "bad filter").

(** The arguments of [filterGeneratedSets] at [state0], on a first
    result of [computeSets] allocated at address 100. *)
Definition filterArgs0 : FilterArgs :=
  filterArgsOf state0 (mkRef 100%positive oneSet).

End Scenario.

(** ** Further accounts *)

Module Vault.

(** A store that holds a weapon and a null entry: nothing for the
    selector to keep. *)
Definition vault : DimStore :=
  mkStore "vault" false Unknown [Some Scenario.rifle; None].

(** A second helmet with the hash of the first. *)
Definition helmet2 : Item :=
  mkItem true (Some [13]) (mkBucket true 3448274439) Hunter 1001.

(** A titan with two helmets of one hash, the first of them twice. *)
Definition titan : DimStore :=
  mkStore "titan" false Titan
    [Some Scenario.helmet; Some helmet2; Some Scenario.helmet].

(** A warlock, the current character, with nothing in the inventory. *)
Definition loneWarlock : DimStore := mkStore "warlock" true Warlock [].

(** Props over the vault and the lone warlock. *)
Definition propsV : Props :=
  {| storesLoaded := true;
     stores := [vault; loneWarlock];
     isPhonePortrait := true;
     items := mkRef 1%positive (Selector.itemsSelector [vault; loneWarlock]);
     defs := Some (mkDefs 1);
     searchConfig := mkSearchConfig [];
     filters := mkSearchFilters (fun _ => mkRef 2%positive (fun _ => true)) |}.

(** Events of a session: the first snapshot, a change of character, a
    new stat order, a locked helmet, a later snapshot. *)
Definition session : list Event :=
  [ StoresEmitted Batched (Some Scenario.snapshot');
    CharacterChanged "warlock";
    StatOrderChanged (mkRef 50%positive [Mobility; Recovery; Resilience]);
    LockedArmorUpdated (mkBucket true 3448274439) [LockedItem Scenario.helmet];
    MinimumPowerChanged 750;
    StoresEmitted Immediate (Some Scenario.snapshot') ].

(** The arguments of [computeSets] for the warlock. *)
Definition argsW : ComputeArgs :=
  computeArgsOf Scenario.props0 Scenario.stateW Scenario.warlock.

End Vault.

(** ** What the events are to keep *)

(** The values that the children hand to [onStatFiltersChanged] and
    [onStatOrderChanged] are well formed; the other events carry
    nothing the state depends on for its ranges and order. *)
Definition payloadOk (e : Event) : Prop :=
  match e with
  | StatFiltersChanged f => forall stat, rangeOk (statFilter (deref f) stat)
  | StatOrderChanged o => orderOk (deref o)
  | _ => True
  end.

(** The state of a mounted instance after some events. *)
Definition stateAfter (props : Props) (heap : positive) (events : list Event)
    (stream : StoresStream) : State :=
  this_state
    (cell (fst (fold_left step events
                  (componentDidMount (instantiate props heap, stream))))).

(** What [step] keeps of the cell: nothing queued, ranges and order. *)
Definition settled (w : Component * StoresStream) : Prop :=
  pending (cell (fst w)) = [] /\ wellFormed (this_state (cell (fst w))).

(** The events that run a handler writing [selectedStore]. *)
Definition writesSelection (e : Event) : bool :=
  match e with
  | StoresEmitted _ _ | CharacterChanged _ => true
  | _ => false
  end.

Definition writesQuery (e : Event) : bool :=
  match e with QueryChanged _ => true | _ => false end.

Definition writesStatOrder (e : Event) : bool :=
  match e with StatOrderChanged _ => true | _ => false end.

(** ** What a render after another is to keep *)

(** A page whose contents area is not the error panel. *)
Definition errorFree (v : View) : Prop :=
  match contentsOf v with
  | Some (ErrorPanel _ _) => False
  | Some _ => True
  | None => False
  end.

(** The inputs of [filterGeneratedSets] that come from the state are
    the same, by [===], in two states. *)
Definition filterInputsEqual (s s' : State) : bool :=
  Z.eqb (minimumPower s) (minimumPower s')
  && sameRef (lockedMap s) (lockedMap s')
  && sameRef (statFilters s) (statFilters s')
  && sameRef (statOrder s) (statOrder s').

(** The menu content with the sets of [FilterBuilds] left out. *)
Definition withoutSets (m : MenuContent) : MenuContent :=
  {| searchFilterInput := searchFilterInput m;
     filterBuilds :=
       {| fb_sets := [];
          fb_selectedStore := fb_selectedStore (filterBuilds m);
          fb_minimumPower := fb_minimumPower (filterBuilds m);
          fb_stats := fb_stats (filterBuilds m);
          fb_defs := fb_defs (filterBuilds m);
          fb_order := fb_order (filterBuilds m) |};
     lockArmorAndPerks := lockArmorAndPerks m |}.

(** What a page shows around the results: the character selector and
    the menu, the sets apart. *)
Definition chrome (v : View) : option (CharacterSelectProps * Menu) :=
  match v with
  | Loading => None
  | Page c (Collapsible i t m) _ => Some (c, Collapsible i t (withoutSets m))
  | Page c (Inline m) _ => Some (c, Inline (withoutSets m))
  end.

(** * Properties *)

(** ** The items selector *)

Module SelectorFacts.
Import Selector.

Lemma classKey_inj c d : classKey c = classKey d -> c = d.
Proof. destruct c, d; simpl; intros H; first [reflexivity | discriminate H]. Qed.

(** Reading the grouping after one push. *)
Lemma grouped_pushItem item (items : ItemsByClass) ct c b h :
  grouped (pushItem item items ct) c b h =
  grouped items c b h ++
  (if Z.eqb c (classKey ct) && Z.eqb b (bucket_hash (bucket item))
      && Z.eqb h (item_hash item)
   then [item] else []).
Proof.
  unfold grouped, pushItem.
  destruct (Z.eqb_spec c (classKey ct)) as [->|Hc]; simpl.
  - rewrite lookup_insert_eq. simpl.
    destruct (Z.eqb_spec b (bucket_hash (bucket item))) as [->|Hb]; simpl.
    + rewrite lookup_insert_eq. simpl.
      destruct (Z.eqb_spec h (item_hash item)) as [->|Hh]; simpl.
      * rewrite lookup_insert_eq. reflexivity.
      * rewrite lookup_insert_ne by congruence. rewrite app_nil_r. reflexivity.
    + rewrite lookup_insert_ne by congruence. rewrite app_nil_r. reflexivity.
  - rewrite lookup_insert_ne by congruence. rewrite app_nil_r. reflexivity.
Qed.

(** Reading the grouping after the pushes of one item under several
    distinct classes. *)
Lemma grouped_pushes item cts : forall (items : ItemsByClass) c b h,
  NoDup cts ->
  grouped (fold_left (pushItem item) cts items) c b h =
  grouped items c b h ++
  (if existsb (fun ct => Z.eqb c (classKey ct)) cts
      && Z.eqb b (bucket_hash (bucket item)) && Z.eqb h (item_hash item)
   then [item] else []).
Proof.
  induction cts as [|ct cts IH]; intros items c b h Hnd; simpl.
  - rewrite app_nil_r. reflexivity.
  - apply NoDup_cons in Hnd as [Hnotin Hnd].
    rewrite IH by assumption. rewrite grouped_pushItem.
    destruct (Z.eqb_spec c (classKey ct)) as [->|Hc]; simpl.
    + assert (existsb (fun ct0 => Z.eqb (classKey ct) (classKey ct0)) cts = false) as ->.
      { apply not_true_is_false. intros Hex.
        apply existsb_exists in Hex as [d [Hd Heq]].
        apply Z.eqb_eq, classKey_inj in Heq. subst d.
        apply Hnotin. apply list_elem_of_In. exact Hd. }
      simpl. rewrite app_nil_r. reflexivity.
    + rewrite app_nil_r. reflexivity.
Qed.

Lemma classTargets_NoDup ct : NoDup (classTargets ct).
Proof.
  destruct ct; simpl; repeat constructor;
    rewrite ?list_elem_of_In; simpl; intuition discriminate.
Qed.

(** Reading the grouping after one iteration of the item loop. *)
Lemma grouped_addItem (items : ItemsByClass) entry c b h :
  grouped (addItem items entry) c b h =
  grouped items c b h ++
  match entry with
  | Some item => if pushedAt c b h item then [item] else []
  | None => []
  end.
Proof.
  destruct entry as [item|]; simpl; [|rewrite app_nil_r; reflexivity].
  unfold pushedAt. destruct (included item); simpl.
  - rewrite grouped_pushes by apply classTargets_NoDup. reflexivity.
  - rewrite app_nil_r. reflexivity.
Qed.

Lemma grouped_addItems entries : forall (items : ItemsByClass) c b h,
  grouped (fold_left addItem entries items) c b h =
  grouped items c b h ++
  List.filter (pushedAt c b h) (omap (fun e => e) entries).
Proof.
  induction entries as [|entry entries IH]; intros items c b h; simpl.
  - rewrite app_nil_r. reflexivity.
  - rewrite IH, grouped_addItem, <- app_assoc. f_equal.
    destruct entry as [item|]; simpl; [|reflexivity].
    destruct (pushedAt c b h item); reflexivity.
Qed.

Lemma grouped_stores stores : forall (items : ItemsByClass) c b h,
  grouped (fold_left (fun items store => fold_left addItem (store_items store) items)
                     stores items) c b h =
  grouped items c b h ++ List.filter (pushedAt c b h) (allItems stores).
Proof.
  induction stores as [|store stores IH]; intros items c b h; simpl.
  - rewrite app_nil_r. reflexivity.
  - rewrite IH, grouped_addItems, <- app_assoc. f_equal.
    unfold allItems. simpl. rewrite List.filter_app. reflexivity.
Qed.

(** The list found at a class, bucket hash and item hash is the list of
    the items the selector files there, in the order of the stores. *)
Lemma grouped_itemsSelector stores c b h :
  grouped (itemsSelector stores) c b h =
  List.filter (pushedAt c b h) (allItems stores).
Proof.
  unfold itemsSelector. rewrite grouped_stores. reflexivity.
Qed.

Lemma included_spec item :
  included item = true <->
  isDestiny2 item = true /\ is_Some (sockets item) /\
  (inArmor (bucket item) = true \/ bucket_hash (bucket item) = ghostBucket).
Proof.
  unfold included.
  rewrite negb_true_iff, !orb_false_iff, !negb_false_iff, andb_false_iff,
          !negb_false_iff, bool_decide_eq_true, Z.eqb_eq.
  tauto.
Qed.

Lemma classTargets_spec ct c :
  existsb (fun d => Z.eqb c (classKey d)) (classTargets ct) = true <->
  filedUnder ct c.
Proof.
  destruct ct; simpl; rewrite ?orb_false_r, ?orb_true_iff, ?Z.eqb_eq; tauto.
Qed.

Lemma allItems_spec stores item :
  In item (allItems stores) <->
  exists store, In store stores /\ In (Some item) (store_items store).
Proof.
  unfold allItems. rewrite in_flat_map. split.
  - intros [store [Hs Hi]]. exists store. split; [exact Hs|].
    apply list_elem_of_In, list_elem_of_omap in Hi as [e [He Heq]].
    simpl in Heq. subst e. apply list_elem_of_In. exact He.
  - intros [store [Hs Hi]]. exists store. split; [exact Hs|].
    apply list_elem_of_In, list_elem_of_omap. exists (Some item).
    split; [apply list_elem_of_In; exact Hi | reflexivity].
Qed.

(** C9. Over any list of stores, an item is found in the grouping at
    class key [c], bucket hash [b] and item hash [h] exactly when it is
    an item of one of the stores, is a Destiny 2 item with sockets in an
    armor bucket or in the ghost bucket 4023194814, [b] and [h] are its
    bucket hash and its item hash, and [c] is one of Hunter, Titan and
    Warlock when its class is Unknown and its own class otherwise. *)
Theorem itemsSelector_groups stores c b h item :
  In item (grouped (itemsSelector stores) c b h) <->
  (exists store, In store stores /\ In (Some item) (store_items store)) /\
  isDestiny2 item = true /\
  is_Some (sockets item) /\
  (inArmor (bucket item) = true \/ bucket_hash (bucket item) = 4023194814) /\
  filedUnder (item_classType item) c /\
  b = bucket_hash (bucket item) /\
  h = item_hash item.
Proof.
  rewrite grouped_itemsSelector, filter_In, allItems_spec.
  unfold pushedAt.
  rewrite !andb_true_iff, included_spec, classTargets_spec, !Z.eqb_eq.
  unfold ghostBucket. tauto.
Qed.

End SelectorFacts.

(** ** The handlers *)

Section HandlerFacts.

Variable props : Props.

(** Whatever the mode, a single [setState] of an object has merged it
    into the state once the handler is over. *)
Lemma dispatch_setState mode u s heap :
  this_state (dispatch (setState mode (UpdateObject u)) s heap) = merge s u.
Proof. destruct mode; reflexivity. Qed.

(** [onCharacterChanged], run to completion, merges its object. *)
Lemma dispatch_onCharacterChanged mode storeId s heap :
  this_state (dispatch (onCharacterChanged props mode storeId) s heap) =
  merge s (fst (characterChange props storeId heap)).
Proof. destruct mode; reflexivity. Qed.

Lemma findById_Some id l store :
  findById id l = Some store -> In store l /\ store_id store = id.
Proof.
  unfold findById. intros H. apply find_some in H as [Hin Heq].
  split; [exact Hin | apply String.eqb_eq; exact Heq].
Qed.

Lemma findById_present id l store :
  In store l -> store_id store = id -> exists sel, findById id l = Some sel.
Proof.
  unfold findById. intros Hin Hid.
  destruct (find (fun s => String.eqb (store_id s) id) l) as [sel|] eqn:Hf.
  - exists sel. reflexivity.
  - exfalso. pose proof (find_none _ _ Hf store Hin) as Hn. simpl in Hn.
    apply String.eqb_neq in Hn. contradiction.
Qed.

(** C2. From every prior state and in either mode, [onCharacterChanged]
    called with the id of a store of [props.stores] leaves, once the
    update is applied, the selected store set to the store of
    [props.stores] with that id (the given store itself when no other
    store has its id), the locked map empty, and each of the three stat
    filters at the range 0 to 10. *)
Theorem onCharacterChanged_resets mode storeId s heap store
    (Hin : In store (stores props)) (Hid : store_id store = storeId) :
  let s' := this_state (dispatch (onCharacterChanged props mode storeId) s heap) in
  (exists sel, selectedStore s' = Some sel /\ In sel (stores props) /\
               store_id sel = storeId) /\
  ((forall other, In other (stores props) -> store_id other = storeId ->
                  other = store) ->
   selectedStore s' = Some store) /\
  deref (lockedMap s') = ∅ /\
  (forall stat, statFilter (deref (statFilters s')) stat = mkMinMax 0 10).
Proof.
  intros s'. subst s'. rewrite dispatch_onCharacterChanged. simpl.
  destruct (findById_present storeId (stores props) store Hin Hid) as [sel Hsel].
  destruct (findById_Some _ _ _ Hsel) as [Hsin Hsid].
  rewrite Hsel. repeat split.
  - exists sel. auto.
  - intros Huniq. f_equal. apply Huniq; assumption.
  - intros stat. destruct stat; reflexivity.
Qed.

(** C10. [onCharacterChanged] hands [setState] an object with the keys
    selectedStore, lockedMap, requirePerks, statFilters and minimumPower
    and without the keys query and statOrder; once it is applied, the
    query string and the stat order are those of the prior state. *)
Theorem onCharacterChanged_frame mode storeId s heap :
  let u := fst (characterChange props storeId heap) in
  let s' := this_state (dispatch (onCharacterChanged props mode storeId) s heap) in
  (set_query u = None /\ set_statOrder u = None) /\
  (is_Some (set_selectedStore u) /\ is_Some (set_lockedMap u) /\
   is_Some (set_requirePerks u) /\ is_Some (set_statFilters u) /\
   is_Some (set_minimumPower u)) /\
  query s' = query s /\
  statOrder s' = statOrder s.
Proof.
  intros u s'. subst u s'. rewrite dispatch_onCharacterChanged. simpl.
  repeat split; eexists; reflexivity.
Qed.

Lemma rangeOk_default stat : rangeOk (statFilter defaultStatFilters stat).
Proof. destruct stat; unfold rangeOk; simpl; lia. Qed.

Lemma orderOk_initial : orderOk [Resilience; Recovery; Mobility].
Proof.
  split.
  - repeat constructor; rewrite ?list_elem_of_In; simpl; intuition discriminate.
  - change [Resilience; Recovery; Mobility] with ([Resilience; Recovery] ++ [Mobility]).
    change [Mobility; Resilience; Recovery] with ([Mobility] ++ [Resilience; Recovery]).
    apply Permutation_app_comm.
Qed.


(** When React defers the updates, the callback still reads the prior
    selection, and the store of the snapshot with that id is selected. *)
Lemma deliver_batched snapshot s heap sel :
  selectedStore s = Some sel ->
  deliver props Batched (Some snapshot) s heap =
  selecting s (findById (store_id sel) snapshot).
Proof.
  intros Hsel. unfold deliver, dispatch, onStores. simpl. rewrite Hsel.
  destruct s; reflexivity.
Qed.

(** C3, as the code behaves when React applies each update at once.
    The first [setState] of the callback has already replaced the
    selection by the current store of the snapshot when the callback
    reads [this.state.selectedStore]: the store selected afterwards is
    the store of the snapshot with the id of the current store, not of
    the store selected before; the other six fields are unchanged. *)
Theorem deliver_immediate_selects_current snapshot s heap cur
    (Hcur : findCurrent snapshot = Some cur) :
  deliver props Immediate (Some snapshot) s heap =
  selecting s (findById (store_id cur) snapshot).
Proof.
  unfold deliver, dispatch, onStores. simpl. rewrite Hcur. simpl.
  destruct s; reflexivity.
Qed.

End HandlerFacts.

(** ** memoizeOne *)

Section MemoFacts.

Context {A R : Type}.
Variable isEqual : A -> A -> bool.
Variable resultFn : A -> Error + R.

(** [===] position by position is an equivalence. *)
Hypothesis isEqual_refl : forall a, isEqual a a = true.
Hypothesis isEqual_sym : forall a b, isEqual a b = isEqual b a.
Hypothesis isEqual_trans :
  forall a b c, isEqual a b = true -> isEqual b c = true -> isEqual a c = true.

Local Abbreviation memo := (memoized isEqual resultFn).
Local Abbreviation callsOf := (calls isEqual resultFn).
Local Abbreviation kept := (remembers isEqual resultFn).

Lemma callThrough_invoked (cell : MemoCell A R) a heap :
  invoked (callThrough resultFn cell a heap) = true.
Proof. unfold callThrough. destruct (resultFn a); reflexivity. Qed.

(** The wrapper reaches the function exactly when it remembers nothing
    or remembers other arguments. *)
Lemma memoized_invoked (cell : MemoCell A R) a heap :
  invoked (memo cell a heap) =
  negb (match cell with Some (b, _) => isEqual a b | None => false end).
Proof.
  unfold memoized. destruct cell as [[b r]|]; simpl.
  - destruct (isEqual a b); simpl; [reflexivity | apply callThrough_invoked].
  - apply callThrough_invoked.
Qed.

Lemma calls_app l1 : forall (cell : MemoCell A R) heap l2,
  callsOf cell heap (l1 ++ l2) =
  callsOf cell heap l1 ++
  callsOf (cellAfter cell (callsOf cell heap l1)) (heapAfter heap (callsOf cell heap l1)) l2.
Proof.
  induction l1 as [|a l1 IH]; intros cell heap l2; simpl; [reflexivity|].
  rewrite IH. reflexivity.
Qed.

Lemma calls_snoc (cell : MemoCell A R) heap before a :
  callsOf cell heap (before ++ [a]) =
  callsOf cell heap before ++
  [(a, memo (cellAfter cell (callsOf cell heap before)) a
                (heapAfter heap (callsOf cell heap before)))].
Proof. rewrite calls_app. reflexivity. Qed.

Lemma calls_args l : forall (cell : MemoCell A R) heap,
  map fst (callsOf cell heap l) = l.
Proof.
  induction l as [|a l IH]; intros cell heap; simpl; [reflexivity|].
  rewrite IH. reflexivity.
Qed.

Lemma latestReturned_snoc (trace : list (A * Called A R)) a c :
  latestReturned (trace ++ [(a, c)]) =
  if returns (returned c) then Some a else latestReturned trace.
Proof. unfold latestReturned. rewrite fold_left_app. reflexivity. Qed.

Lemma cellAfter_snoc (cell : MemoCell A R) trace a c :
  cellAfter cell (trace ++ [(a, c)]) = remembered c.
Proof. unfold cellAfter. rewrite fold_left_app. reflexivity. Qed.

Lemma remembers_step (cell : MemoCell A R) trace a heap :
  kept cell trace ->
  let c := memo cell a heap in
  kept (remembered c) (trace ++ [(a, c)]).
Proof.
  intros Hinv c. subst c. unfold remembers.
  rewrite latestReturned_snoc, map_app. simpl.
  unfold memoized.
  destruct cell as [[b0 r]|]; simpl in *.
  - destruct Hinv as [[b [Hb Hbb0]] [Hin Hres]].
    destruct (isEqual a b0) eqn:Hab0; simpl.
    + repeat split; [exists a; auto | apply in_or_app; auto | exact Hres].
    + unfold callThrough. destruct (resultFn a) as [e|v] eqn:Hfa; simpl.
      * repeat split; [exists b; auto | apply in_or_app; auto | exact Hres].
      * repeat split; [exists a; auto | apply in_or_app; simpl; auto | exact Hfa].
  - unfold callThrough. destruct (resultFn a) as [e|v] eqn:Hfa; simpl.
    + exact Hinv.
    + repeat split; [exists a; auto | apply in_or_app; simpl; auto | exact Hfa].
Qed.

Lemma remembers_calls before : forall heap,
  kept (cellAfter None (callsOf None heap before)) (callsOf None heap before).
Proof.
  induction before as [|a before IH] using rev_ind; intros heap.
  - reflexivity.
  - rewrite calls_snoc, cellAfter_snoc. apply remembers_step. apply IH.
Qed.

(** Every call of a wrapper that started empty.  The call returns, or
    throws, what the function does on its arguments, provided the
    function cannot tell apart arguments that [isEqual] takes for equal;
    and it reaches the function exactly when no earlier call returned
    or the arguments differ, under [isEqual], from those of the latest
    call that returned. *)
Lemma memoized_call before a heap :
  let trace := callsOf None heap before in
  let c := memo (cellAfter None trace) a (heapAfter heap trace) in
  callsOf None heap (before ++ [a]) = trace ++ [(a, c)] /\
  (stable isEqual resultFn (before ++ [a]) -> observed (returned c) = resultFn a) /\
  invoked c = negb (match latestReturned trace with
                    | Some b => isEqual a b
                    | None => false
                    end).
Proof.
  intros trace c. split; [apply calls_snoc|].
  pose proof (remembers_calls before heap) as Hinv. fold trace in Hinv.
  unfold remembers in Hinv. split.
  - intros Hstable. subst c. unfold memoized.
    destruct (cellAfter None trace) as [[b0 r]|] eqn:Hcell.
    + destruct Hinv as [_ [Hin Hres]].
      destruct (isEqual a b0) eqn:Hab0; simpl.
      * rewrite (Hstable a b0); [symmetry; exact Hres | | | exact Hab0].
        -- apply in_or_app. simpl. auto.
        -- apply in_or_app. left. subst trace. rewrite calls_args in Hin. exact Hin.
      * unfold callThrough. destruct (resultFn a); reflexivity.
    + unfold callThrough. destruct (resultFn a); reflexivity.
  - subst c. rewrite memoized_invoked.
    destruct (cellAfter None trace) as [[b0 r]|] eqn:Hcell.
    + destruct Hinv as [[b [Hb Hbb0]] _]. rewrite Hb. f_equal.
      destruct (isEqual a b) eqn:Hab.
      * apply (isEqual_trans a b b0); assumption.
      * destruct (isEqual a b0) eqn:Hab0; [|reflexivity].
        rewrite <- Hab. symmetry. apply (isEqual_trans a b0 b); [exact Hab0|].
        rewrite isEqual_sym. exact Hbb0.
    + rewrite Hinv. reflexivity.
Qed.

End MemoFacts.

Section MemoCases.

Context {A R : Type}.
Variable isEqual : A -> A -> bool.
Variable resultFn : A -> Error + R.

Lemma memoized_cases (cell : MemoCell A R) a heap :
  CallCase isEqual resultFn cell a heap (memoized isEqual resultFn cell a heap).
Proof.
  unfold memoized, callThrough.
  destruct cell as [[b r]|]; simpl.
  - destruct (isEqual a b) eqn:Hab.
    + eapply CallHit; eauto.
    + destruct (resultFn a) as [e|v] eqn:Hfa; simpl.
      * apply CallThrows; simpl; auto.
      * apply CallReturns; simpl; auto.
  - destruct (resultFn a) as [e|v] eqn:Hfa; simpl.
    + apply CallThrows; simpl; auto.
    + apply CallReturns; simpl; auto.
Qed.

End MemoCases.

(** *** The two wrappers of the component *)

Lemma sameRef_true {T U : Type} (a : Ref T) (b : Ref U) :
  sameRef a b = true <-> addr a = addr b.
Proof. unfold sameRef. apply Pos.eqb_eq. Qed.

Lemma computeArgsEqual_true a b :
  computeArgsEqual a b = true <->
  addr (arg_items a) = addr (arg_items b) /\
  arg_classType a = arg_classType b /\
  arg_requirePerks a = arg_requirePerks b /\
  addr (arg_lockedMap a) = addr (arg_lockedMap b) /\
  addr (arg_filter a) = addr (arg_filter b).
Proof.
  unfold computeArgsEqual.
  rewrite !andb_true_iff, !sameRef_true, bool_decide_eq_true, Bool.eqb_true_iff.
  tauto.
Qed.

Lemma filterArgsEqual_true a b :
  filterArgsEqual a b = true <->
  addr (arg_sets a) = addr (arg_sets b) /\
  arg_minimumPower a = arg_minimumPower b /\
  addr (arg_locked a) = addr (arg_locked b) /\
  addr (arg_statFilters a) = addr (arg_statFilters b) /\
  addr (arg_statOrder a) = addr (arg_statOrder b).
Proof.
  unfold filterArgsEqual.
  rewrite !andb_true_iff, !sameRef_true, Z.eqb_eq. tauto.
Qed.

Lemma computeArgsEqual_refl a : computeArgsEqual a a = true.
Proof. apply computeArgsEqual_true. auto. Qed.

Lemma computeArgsEqual_sym a b : computeArgsEqual a b = computeArgsEqual b a.
Proof.
  apply Bool.eq_iff_eq_true. rewrite !computeArgsEqual_true.
  intuition congruence.
Qed.

Lemma computeArgsEqual_trans a b c :
  computeArgsEqual a b = true -> computeArgsEqual b c = true ->
  computeArgsEqual a c = true.
Proof. rewrite !computeArgsEqual_true. intuition congruence. Qed.

Lemma filterArgsEqual_refl a : filterArgsEqual a a = true.
Proof. apply filterArgsEqual_true. auto. Qed.

Lemma filterArgsEqual_sym a b : filterArgsEqual a b = filterArgsEqual b a.
Proof.
  apply Bool.eq_iff_eq_true. rewrite !filterArgsEqual_true.
  intuition congruence.
Qed.

Lemma filterArgsEqual_trans a b c :
  filterArgsEqual a b = true -> filterArgsEqual b c = true ->
  filterArgsEqual a c = true.
Proof. rewrite !filterArgsEqual_true. intuition congruence. Qed.

Section WrapperFacts.

Variable computeSets : ComputeSets.
Variable filterGeneratedSets : FilterGeneratedSets.

Local Abbreviation computeMemo :=
  (memoized computeArgsEqual (computeSetsOn computeSets)).
Local Abbreviation filterMemo :=
  (memoized filterArgsEqual (filterGeneratedSetsOn filterGeneratedSets)).
Local Abbreviation computeCalls :=
  (calls computeArgsEqual (computeSetsOn computeSets)).
Local Abbreviation filterCalls :=
  (calls filterArgsEqual (filterGeneratedSetsOn filterGeneratedSets)).

(** C4, as the wrappers behave.  In every sequence of calls of
    [computeSetsMemoized], and of [filterSetsMemoized], on arguments
    that were not changed in place, each call returns, or throws, what
    the underlying function does on its arguments; and the underlying
    function is called exactly when no earlier call has returned or an
    argument differs by reference from the arguments of the latest call
    that returned.  A call that threw is not among these: nothing is
    kept of it. *)
Theorem wrappers_memoize heap beforeC a beforeF b
    (HstableC : stable computeArgsEqual (computeSetsOn computeSets) (beforeC ++ [a]))
    (HstableF : stable filterArgsEqual (filterGeneratedSetsOn filterGeneratedSets)
                       (beforeF ++ [b])) :
  let traceC := computeCalls None heap beforeC in
  let c := computeMemo (cellAfter None traceC) a (heapAfter heap traceC) in
  let traceF := filterCalls None heap beforeF in
  let f := filterMemo (cellAfter None traceF) b (heapAfter heap traceF) in
  observed (returned c) = computeSetsOn computeSets a /\
  observed (returned f) = filterGeneratedSetsOn filterGeneratedSets b /\
  invoked c = negb (match latestReturned traceC with
                    | Some a' => computeArgsEqual a a'
                    | None => false
                    end) /\
  invoked f = negb (match latestReturned traceF with
                    | Some b' => filterArgsEqual b b'
                    | None => false
                    end).
Proof.
  intros traceC c traceF f.
  destruct (memoized_call computeArgsEqual (computeSetsOn computeSets)
              computeArgsEqual_refl computeArgsEqual_sym computeArgsEqual_trans
              beforeC a heap) as [_ [Hc1 Hc2]].
  destruct (memoized_call filterArgsEqual (filterGeneratedSetsOn filterGeneratedSets)
              filterArgsEqual_refl filterArgsEqual_sym filterArgsEqual_trans
              beforeF b heap) as [_ [Hf1 Hf2]].
  repeat split; auto.
Qed.

End WrapperFacts.

(** ** render and its two wrappers *)

Section RenderFacts.

Variable computeSets : ComputeSets.
Variable filterGeneratedSets : FilterGeneratedSets.

Local Abbreviation Ok := (EnvOk computeSets filterGeneratedSets).

Lemma latestCompute_snoc log i :
  latestComputeReturned (log ++ [i]) =
  match i with ComputeSetsCalled a true => Some a | _ => latestComputeReturned log end.
Proof. unfold latestComputeReturned. rewrite fold_left_app. reflexivity. Qed.

Lemma latestFilter_snoc log i :
  latestFilterReturned (log ++ [i]) =
  match i with FilterGeneratedSetsCalled a true => Some a | _ => latestFilterReturned log end.
Proof. unfold latestFilterReturned. rewrite fold_left_app. reflexivity. Qed.

Lemma fromInputsC_mono inputs more a :
  fromInputsC inputs a -> fromInputsC (inputs ++ more) a.
Proof. intros (p & s & st & Hin & ->). exists p, s, st. split; [apply in_or_app; auto | reflexivity]. Qed.

Lemma fromInputsF_mono inputs more a :
  fromInputsF inputs a -> fromInputsF (inputs ++ more) a.
Proof. intros (p & s & r & Hin & ->). exists p, s, r. split; [apply in_or_app; auto | reflexivity]. Qed.

Lemma EnvOk_mono inputs more env : Ok inputs env -> Ok (inputs ++ more) env.
Proof.
  intros [H1 H2 H3 H4 H5]. constructor; auto.
  - intros ac rc Hc. destruct (H1 _ _ Hc) as (? & ? & ?). auto using fromInputsC_mono.
  - intros af rf Hf. destruct (H2 _ _ Hf) as (? & ? & ?). auto using fromInputsF_mono.
Qed.

Ltac log_simpl :=
  unfold latestComputeReturned, latestFilterReturned;
  rewrite <- ?app_assoc, ?app_nil_r, ?fold_left_app; simpl.

Ltac cache_goal H :=
  let ac := fresh "ac" in
  let rc := fresh "rc" in
  let Hc := fresh "Hc" in
  intros ac rc Hc;
  first [ injection Hc as <- <-; simpl
        | destruct (H _ _ Hc) as (? & ? & ?) ];
  repeat split; auto; try lia.

Lemma attempt_ok inputs props state store env :
  Ok inputs env ->
  Ok (inputs ++ [(props, state)]) (env_after (attempt computeSets filterGeneratedSets props state store env)).
Proof.
  intros Hok.
  assert (HinC : fromInputsC (inputs ++ [(props, state)]) (computeArgsOf props state store)).
  { exists props, state, store. split; [apply in_or_app; simpl; auto | reflexivity]. }
  assert (HinF : forall r, fromInputsF (inputs ++ [(props, state)]) (filterArgsOf state r)).
  { intros r. exists props, state, r. split; [apply in_or_app; simpl; auto | reflexivity]. }
  apply (EnvOk_mono inputs [(props, state)]) in Hok.
  destruct Hok as [H1 H2 H3 H4 H5].
  unfold attempt, noteCompute, noteFilter.
  destruct (memoized_cases computeArgsEqual (computeSetsOn computeSets)
              (computeSetsMemoized env) (computeArgsOf props state store) (env_heap env))
    as [b r Hcell Heq | e Hmiss Hfa | v Hmiss Hfa]; simpl.
  - (* the compute wrapper answers from what it remembers *)
    destruct (H1 _ _ Hcell) as (Hs & Hlt & Hfrom).
    destruct (memoized_cases filterArgsEqual (filterGeneratedSetsOn filterGeneratedSets)
                (filterSetsMemoized env) (filterArgsOf state r) (env_heap env))
      as [b' r' Hcell' Heq' | e Hmiss' Hfa' | v Hmiss' Hfa']; simpl;
      (constructor; simpl;
       [ cache_goal H1 | cache_goal H2 | | log_simpl; auto | log_simpl; auto ]);
      auto.
    intros ac rc af rf Hc [= <- <-]. simpl. rewrite Hcell in Hc.
    injection Hc as <- <-. reflexivity.
  - (* computeSets throws *)
    constructor; simpl; [ | | | log_simpl | log_simpl ]; auto.
  - (* computeSets returns a new array *)
    destruct (memoized_cases filterArgsEqual (filterGeneratedSetsOn filterGeneratedSets)
                (filterSetsMemoized env)
                (filterArgsOf state (mkRef (env_heap env) v)) (Pos.succ (env_heap env)))
      as [b' r' Hcell' Heq' | e Hmiss' Hfa' | v' Hmiss' Hfa']; simpl.
    + exfalso. destruct (H2 _ _ Hcell') as (_ & Hlt & _).
      apply filterArgsEqual_true in Heq' as [Haddr _]. simpl in Haddr. lia.
    + constructor; simpl;
        [ cache_goal H1 | cache_goal H2 | | log_simpl; auto | log_simpl; auto ].
      intros ac rc af rf [= <- <-] Hf Haddr. simpl in Haddr.
      destruct (H2 _ _ Hf) as (_ & Hlt & _). lia.
    + constructor; simpl;
        [ cache_goal H1 | cache_goal H2 | | log_simpl; auto | log_simpl; auto ].
      intros ac rc af rf [= <- <-] [= <- <-] _. reflexivity.
Qed.

Lemma newEnv_ok heap : Ok [] (newEnv heap).
Proof. constructor; simpl; try discriminate; reflexivity. Qed.

Lemma render_ok inputs props state env :
  Ok inputs env ->
  Ok (inputs ++ [(props, state)]) (snd (render computeSets filterGeneratedSets props state env)).
Proof.
  intros Hok. unfold render.
  destruct (storesLoaded props); [|apply EnvOk_mono; exact Hok].
  destruct (defs props) as [defs0|]; [|apply EnvOk_mono; exact Hok].
  destruct (storeOf props state) as [store|]; [|apply EnvOk_mono; exact Hok].
  destruct (deref (items props) !! classKey (store_classType store));
    [|apply EnvOk_mono; exact Hok].
  simpl. apply attempt_ok. exact Hok.
Qed.

Lemma renders_snoc history props state env :
  renders computeSets filterGeneratedSets (history ++ [(props, state)]) env =
  snd (render computeSets filterGeneratedSets props state (renders computeSets filterGeneratedSets history env)).
Proof. unfold renders. rewrite fold_left_app. reflexivity. Qed.

(** The wrappers of an instance, after any sequence of renders. *)
Lemma renders_ok history heap :
  Ok history (renders computeSets filterGeneratedSets history (newEnv heap)).
Proof.
  induction history as [|[props state] history IH] using rev_ind.
  - apply newEnv_ok.
  - rewrite renders_snoc. apply render_ok. exact IH.
Qed.

Ltac delta_goal :=
  split; [auto | split; [auto | split]];
  intros ? ? Hin; simpl in Hin;
  repeat match goal with
         | H : _ \/ _ |- _ => destruct H
         | H : False |- _ => destruct H
         | H : ComputeSetsCalled _ _ = ComputeSetsCalled _ _ |- _ =>
             injection H as <- <-
         | H : FilterGeneratedSetsCalled _ _ = FilterGeneratedSetsCalled _ _ |- _ =>
             injection H as <- <-
         | H : ComputeSetsCalled _ _ = FilterGeneratedSetsCalled _ _ |- _ =>
             discriminate H
         | H : FilterGeneratedSetsCalled _ _ = ComputeSetsCalled _ _ |- _ =>
             discriminate H
         end;
  eauto.

(** The calls of the underlying functions that one [try] statement
    adds to the record: at most one of each, and each one because its
    wrapper did not answer from what it remembered. *)
Lemma attempt_invocations props state store env :
  exists delta,
    invocations (env_after (attempt computeSets filterGeneratedSets props state store env)) =
    invocations env ++ delta /\
    (length (List.filter isComputeCall delta) <= 1)%nat /\
    (length (List.filter isFilterCall delta) <= 1)%nat /\
    (forall a ok, In (ComputeSetsCalled a ok) delta ->
       a = computeArgsOf props state store /\
       misses computeArgsEqual (computeSetsMemoized env) a) /\
    (forall a ok, In (FilterGeneratedSetsCalled a ok) delta ->
       (exists r, a = filterArgsOf state r) /\
       misses filterArgsEqual (filterSetsMemoized env) a).
Proof.
  unfold attempt, noteCompute, noteFilter.
  destruct (memoized_cases computeArgsEqual (computeSetsOn computeSets)
              (computeSetsMemoized env) (computeArgsOf props state store) (env_heap env))
    as [b r Hcell Heq | e Hmiss Hfa | v Hmiss Hfa]; simpl.
  - destruct (memoized_cases filterArgsEqual (filterGeneratedSetsOn filterGeneratedSets)
                (filterSetsMemoized env) (filterArgsOf state r) (env_heap env))
      as [b' r' Hcell' Heq' | e Hmiss' Hfa' | v Hmiss' Hfa']; simpl;
      rewrite <- ?app_assoc; simpl; eexists; (split; [reflexivity|]); simpl;
      delta_goal.
  - eexists; (split; [reflexivity|]); simpl. delta_goal.
  - destruct (memoized_cases filterArgsEqual (filterGeneratedSetsOn filterGeneratedSets)
                (filterSetsMemoized env)
                (filterArgsOf state (mkRef (env_heap env) v)) (Pos.succ (env_heap env)))
      as [b' r' Hcell' Heq' | e Hmiss' Hfa' | v' Hmiss' Hfa']; simpl;
      rewrite <- ?app_assoc; simpl; eexists; (split; [reflexivity|]); simpl;
      delta_goal.
Qed.

Lemma render_invocations props state env :
  exists delta,
    invocations (snd (render computeSets filterGeneratedSets props state env)) = invocations env ++ delta /\
    (length (List.filter isComputeCall delta) <= 1)%nat /\
    (length (List.filter isFilterCall delta) <= 1)%nat /\
    (forall a ok, In (ComputeSetsCalled a ok) delta ->
       misses computeArgsEqual (computeSetsMemoized env) a) /\
    (forall a ok, In (FilterGeneratedSetsCalled a ok) delta ->
       misses filterArgsEqual (filterSetsMemoized env) a).
Proof.
  assert (Hnone : exists delta,
    invocations env = invocations env ++ delta /\
    (length (List.filter isComputeCall delta) <= 1)%nat /\
    (length (List.filter isFilterCall delta) <= 1)%nat /\
    (forall a ok, In (ComputeSetsCalled a ok) delta ->
       misses computeArgsEqual (computeSetsMemoized env) a) /\
    (forall a ok, In (FilterGeneratedSetsCalled a ok) delta ->
       misses filterArgsEqual (filterSetsMemoized env) a)).
  { exists []. rewrite app_nil_r. simpl. repeat split; auto; intros ? ? []. }
  unfold render.
  destruct (storesLoaded props); [|exact Hnone].
  destruct (defs props) as [defs0|]; [|exact Hnone].
  destruct (storeOf props state) as [store|]; [|exact Hnone].
  destruct (deref (items props) !! classKey (store_classType store));
    [|exact Hnone].
  simpl.
  destruct (attempt_invocations props state store env)
    as (delta & Hd & Hc & Hf & HC & HF).
  exists delta. repeat split; auto.
  - intros a ok Hin. apply (HC a ok Hin).
  - intros a ok Hin. apply (HF a ok Hin).
Qed.

(** C7, as the code behaves.  In every sequence of renders of an
    instance, a render calls each underlying function at most once, and
    calls it only when no earlier call of that function has returned or
    one of its inputs differs by reference from the inputs of the latest
    call of that function that returned.  The inputs of a call that
    threw are not kept, so they do not hold back a later call. *)
Theorem render_recomputes_on_change history props state heap :
  let env := renders computeSets filterGeneratedSets history (newEnv heap) in
  let env' := snd (render computeSets filterGeneratedSets props state env) in
  exists delta,
    invocations env' = invocations env ++ delta /\
    (length (List.filter isComputeCall delta) <= 1)%nat /\
    (length (List.filter isFilterCall delta) <= 1)%nat /\
    (forall a ok, In (ComputeSetsCalled a ok) delta ->
       match latestComputeReturned (invocations env) with
       | Some b => computeArgsEqual a b = false
       | None => True
       end) /\
    (forall a ok, In (FilterGeneratedSetsCalled a ok) delta ->
       match latestFilterReturned (invocations env) with
       | Some b => filterArgsEqual a b = false
       | None => True
       end).
Proof.
  intros env env'. subst env'.
  pose proof (renders_ok history heap) as Hok. fold env in Hok.
  destruct (render_invocations props state env) as (delta & Hd & Hc & Hf & HC & HF).
  exists delta. repeat split; auto.
  - intros a ok Hin. specialize (HC a ok Hin).
    rewrite <- (ok_logC _ _ _ _ Hok). unfold misses in HC.
    destruct (computeSetsMemoized env) as [[b r]|]; simpl; auto.
  - intros a ok Hin. specialize (HF a ok Hin).
    rewrite <- (ok_logF _ _ _ _ Hok). unfold misses in HF.
    destruct (filterSetsMemoized env) as [[b r]|]; simpl; auto.
Qed.

Lemma no_delta (log delta : list Invocation) : log = log ++ delta -> delta = [].
Proof.
  intros H. rewrite <- (app_nil_r log) in H at 1.
  apply app_inv_head in H. auto.
Qed.

Ltac threw_cases Hd Hin :=
  rewrite <- ?app_assoc in Hd; apply app_inv_head in Hd; subst;
  simpl in Hin;
  repeat match goal with
         | H : _ \/ _ |- _ => destruct H
         | H : exists _, _ |- _ => destruct H
         | H : False |- _ => destruct H
         | H : ComputeSetsCalled _ _ = ComputeSetsCalled _ _ |- _ =>
             first [discriminate H | injection H as <-]
         | H : FilterGeneratedSetsCalled _ _ = FilterGeneratedSetsCalled _ _ |- _ =>
             first [discriminate H | injection H as <-]
         | H : ComputeSetsCalled _ _ = FilterGeneratedSetsCalled _ _ |- _ =>
             discriminate H
         | H : FilterGeneratedSetsCalled _ _ = ComputeSetsCalled _ _ |- _ =>
             discriminate H
         end.

(** C1, as the code behaves.  In every render in which [computeSets] or
    [filterGeneratedSets] throws, the exception is caught and written to
    the console, the contents area is the error panel with the message
    of the exception, and no [GeneratedSets] element is rendered.  The
    menu still renders [FilterBuilds] on [processedSets]: the empty list
    when [computeSets] threw, and the sets that were being filtered when
    [filterGeneratedSets] threw. *)
Theorem render_failure props state env
    (Hthrew : threwIn env (snd (render computeSets filterGeneratedSets props state env))) :
  exists view e,
    fst (render computeSets filterGeneratedSets props state env) = inr view /\
    console (snd (render computeSets filterGeneratedSets props state env)) = console env ++ [e] /\
    contentsOf view = Some (ErrorPanel "ErrorBoundary.Title" (message e)) /\
    generatedSetsOf view = None /\
    ((exists a,
        last (invocations (snd (render computeSets filterGeneratedSets props state env))) =
          Some (ComputeSetsCalled a false) /\
        computeSetsOn computeSets a = inl e /\
        shownSets view = [[]]) \/
     (exists a,
        last (invocations (snd (render computeSets filterGeneratedSets props state env))) =
          Some (FilterGeneratedSetsCalled a false) /\
        filterGeneratedSetsOn filterGeneratedSets a = inl e /\
        shownSets view = [deref (arg_sets a)])).
Proof.
  destruct Hthrew as (delta & Hd & Hin).
  assert (Hnone : invocations env = invocations env ++ delta -> False).
  { intros H. apply no_delta in H. subst delta.
    destruct Hin as [[a []]|[a []]]. }
  revert Hd. unfold render.
  destruct (storesLoaded props); [|intros Hd; destruct (Hnone Hd)].
  destruct (defs props) as [defs0|]; [|intros Hd; destruct (Hnone Hd)].
  destruct (storeOf props state) as [store|]; [|intros Hd; destruct (Hnone Hd)].
  destruct (deref (items props) !! classKey (store_classType store));
    [|intros Hd; destruct (Hnone Hd)].
  clear Hnone. simpl. unfold page, contents, attempt, noteCompute, noteFilter.
  destruct (memoized_cases computeArgsEqual (computeSetsOn computeSets)
              (computeSetsMemoized env) (computeArgsOf props state store) (env_heap env))
    as [b r Hcell Heq | e Hmiss Hfa | v Hmiss Hfa]; simpl.
  - destruct (memoized_cases filterArgsEqual (filterGeneratedSetsOn filterGeneratedSets)
                (filterSetsMemoized env) (filterArgsOf state r) (env_heap env))
      as [b' r' Hcell' Heq' | e Hmiss' Hfa' | v Hmiss' Hfa']; simpl;
      intros Hd; threw_cases Hd Hin.
    eexists; exists e. do 4 (split; [reflexivity|]).
    right. eexists. rewrite app_nil_r, last_snoc. repeat split; eauto.
    destruct (isPhonePortrait props); reflexivity.
  - intros Hd; threw_cases Hd Hin.
    eexists; exists e. do 4 (split; [reflexivity|]).
    left. eexists. rewrite last_snoc. repeat split; eauto.
    destruct (isPhonePortrait props); reflexivity.
  - destruct (memoized_cases filterArgsEqual (filterGeneratedSetsOn filterGeneratedSets)
                (filterSetsMemoized env)
                (filterArgsOf state (mkRef (env_heap env) v)) (Pos.succ (env_heap env)))
      as [b' r' Hcell' Heq' | e Hmiss' Hfa' | v' Hmiss' Hfa']; simpl;
      intros Hd; threw_cases Hd Hin.
    eexists; exists e. do 4 (split; [reflexivity|]).
    right. eexists. rewrite last_snoc. repeat split; eauto.
    destruct (isPhonePortrait props); reflexivity.
Qed.




End RenderFacts.

(** ** The subscription over the life of an instance *)

Section LifecycleFacts.

Lemma mountedOn_didMount comp stream :
  mountedOn stream (componentDidMount (comp, stream)).
Proof.
  unfold mountedOn. simpl. repeat split. set_solver.
Qed.

Lemma mountedOn_step stream w e :
  mountedOn stream w -> mountedOn stream (step w e).
Proof.
  destruct w as [comp strm]. unfold mountedOn. simpl.
  intros (Hsub & Hout & Hact).
  destruct e; simpl; rewrite ?Hsub; simpl; try (repeat split; assumption).
  - case_bool_decide; simpl; repeat split; auto.
  - repeat split; try assumption. rewrite <- Hact. set_solver.
Qed.

Lemma mountedOn_events stream events : forall w,
  mountedOn stream w -> mountedOn stream (fold_left step events w).
Proof.
  induction events as [|e events IH]; intros w Hw; simpl; [exact Hw|].
  apply IH, mountedOn_step, Hw.
Qed.

(** C5. Over the life of an instance, whatever happens between mount
    and unmount: mounting takes one subscription on the stores stream,
    which is then active and held in [storesSubscription]; no other
    subscription is taken before unmount; unmounting does not throw and
    leaves that subscription inactive, with the other subscriptions of
    the stream as they were. *)
Theorem subscription_scoped props heap events stream :
  let sub := handedOut stream in
  let mounted := componentDidMount (instantiate props heap, stream) in
  let final := snd (fst (lifecycle props heap events stream)) in
  let thrown := snd (lifecycle props heap events stream) in
  storesSubscription (fst mounted) = Some sub /\
  (sub ∈ active (snd mounted)) /\
  handedOut final = S (handedOut stream) /\
  thrown = None /\
  (sub ∉ active final) /\
  active final = active stream ∖ {[sub]}.
Proof.
  intros sub mounted final thrown. subst final thrown.
  unfold lifecycle. fold mounted.
  pose proof (mountedOn_events stream events mounted
                (mountedOn_didMount _ stream)) as Hm.
  destruct (fold_left step events mounted) as [comp strm].
  destruct Hm as (Hsub & Hout & Hact). simpl in *.
  rewrite Hsub. simpl.
  split; [reflexivity|]. split; [set_solver|]. split; [exact Hout|].
  split; [reflexivity|]. split; [set_solver|]. exact Hact.
Qed.

End LifecycleFacts.

(** ** The concrete account *)

Module ScenarioFacts.
Import Scenario.

(** The selector on the two characters: the helmet under Hunter only,
    the ghost under the three classes, the rifle and the null entry
    nowhere. *)
Example selector_helmet :
  Selector.grouped (Selector.itemsSelector [hunter; warlock]) 1 3448274439 1001
  = [helmet].
Proof. vm_compute. reflexivity. Qed.

Example selector_ghost :
  map (fun c => Selector.grouped (Selector.itemsSelector [hunter; warlock])
                                 c 4023194814 2002) [0; 1; 2; 3]
  = [[ghost]; [ghost]; [ghost]; []].
Proof. vm_compute. reflexivity. Qed.

Example selector_rifle :
  map (fun c => Selector.grouped (Selector.itemsSelector [hunter; warlock])
                                 c 1498876634 3003) [0; 1; 2; 3]
  = [[]; []; []; []].
Proof. vm_compute. reflexivity. Qed.

(** Changing to the warlock from the state of a new instance. *)
Lemma onCharacterChanged_resets_witness :
  let s' := this_state (dispatch (onCharacterChanged props0 Batched "warlock")
                                 state0 20) in
  (exists sel, selectedStore s' = Some sel /\ In sel (stores props0) /\
               store_id sel = "warlock"%string) /\
  ((forall other, In other (stores props0) -> store_id other = "warlock"%string ->
                  other = warlock) ->
   selectedStore s' = Some warlock) /\
  deref (lockedMap s') = ∅ /\
  (forall stat, statFilter (deref (statFilters s')) stat = mkMinMax 0 10).
Proof.
  apply (onCharacterChanged_resets props0 Batched "warlock" state0 20 warlock).
  - simpl. auto.
  - reflexivity.
Defined.


(** A later snapshot arrives while the warlock is selected, and React
    applies each update at once: the hunter, the current character of
    the snapshot, ends up selected. *)
Lemma deliver_immediate_witness :
  findCurrent snapshot' = Some hunter' /\
  selectedStore stateW = Some warlock /\
  selectedStore (deliver props0 Immediate (Some snapshot') stateW 20) = Some hunter'.
Proof.
  split; [reflexivity|]. split; [reflexivity|].
  rewrite (deliver_immediate_selects_current props0 snapshot' stateW 20 hunter').
  - reflexivity.
  - reflexivity.
Defined.

(** The same delivery when React defers the updates: the warlock of the
    snapshot is selected. *)
Example deliver_batched_example :
  selectedStore (deliver props0 Batched (Some snapshot') stateW 20) = Some warlock'.
Proof. rewrite (deliver_batched props0 snapshot' stateW 20 warlock); reflexivity. Qed.

(** The first snapshot after mount, delivered inside React's batch with
    nothing selected yet: the current character is selected by
    [onCharacterChanged], from [props.stores]. *)
Example first_snapshot_selects_current :
  selectedStore (deliver props0 Batched (Some snapshot') state0 20) = Some hunter.
Proof. reflexivity. Qed.

(** A null snapshot changes nothing. *)
Example null_snapshot_ignored mode :
  deliver props0 mode None stateW 20 = stateW.
Proof. destruct mode; reflexivity. Qed.

(** A snapshot without a current character, applied at once: the
    callback throws on [.id] after it has cleared the selection. *)
Example snapshot_without_current_throws :
  let out := onStores props0 Immediate (Some [warlock']) (idle stateW 20) in
  snd out = Some (typeError "id") /\
  selectedStore (this_state (fst out)) = None.
Proof. split; reflexivity. Qed.

(** The loading guards of [render], and the page when both computations
    return. *)
Example render_not_loaded :
  fst (render computeOne filterAll
         (mkProps false [] false (items props0) None (searchConfig props0)
                  (filters props0))
         state0 (newEnv 100)) = inr Loading.
Proof. reflexivity. Qed.

Example render_without_store :
  fst (render computeOne filterAll
         (mkProps true [warlock] false (items props0) (defs props0)
                  (searchConfig props0) (filters props0))
         state0 (newEnv 100)) = inl (typeError "classType").
Proof. reflexivity. Qed.

Example render_no_builds :
  contentsOf (Page (mkCharacterSelect hunter [] true false)
                   (Inline (menuContent props0 state0 hunter (mkDefs 1) []))
                   (contents state0 hunter (mkDefs 1)
                             (mkAttempt [] [] None (newEnv 100))))
  = Some (NoBuildsFound "LoadoutBuilder.NoBuildsFound" "LoadoutBuilder.RequirePerks").
Proof. reflexivity. Qed.

(** [computeSets] returns one set and [filterGeneratedSets] throws: the
    error panel is shown and the message logged. *)
Lemma render_failure_witness :
  exists view,
    fst (render computeOne filterThrows props0 state0 (newEnv 100)) = inr view /\
    console (snd (render computeOne filterThrows props0 state0 (newEnv 100)))
      = [mkError "bad filter"] /\
    contentsOf view = Some (ErrorPanel "ErrorBoundary.Title" "bad filter") /\
    generatedSetsOf view = None.
Proof.
  destruct (render_failure computeOne filterThrows props0 state0 (newEnv 100))
    as (view & e & Hview & Hlog & Hpanel & Hnone & _).
  - exists [ComputeSetsCalled args0 true; FilterGeneratedSetsCalled filterArgs0 false].
    split; [vm_compute; reflexivity|].
    right. exists filterArgs0. simpl. auto.
  - exists view. split; [exact Hview|].
    assert (He : e = mkError "bad filter").
    { vm_compute in Hlog. injection Hlog as <-. reflexivity. }
    subst e. split; [exact Hlog|]. split; [exact Hpanel | exact Hnone].
Defined.

(** In that render the menu still hands the computed set to
    [FilterBuilds]: the output of a failed render holds a set list that
    is not empty. *)
Lemma failed_render_shows_processedSets :
  exists view,
    fst (render computeOne filterThrows props0 state0 (newEnv 100)) = inr view /\
    threwIn (newEnv 100)
            (snd (render computeOne filterThrows props0 state0 (newEnv 100))) /\
    shownSets view = [oneSet] /\
    ~ showsNoSets view.
Proof.
  eexists. split; [vm_compute; reflexivity|]. split; [|split].
  - exists [ComputeSetsCalled args0 true; FilterGeneratedSetsCalled filterArgs0 false].
    split; [vm_compute; reflexivity|].
    right. exists filterArgs0. simpl. auto.
  - reflexivity.
  - intros H. inversion H as [|? ? Hhead _]. discriminate Hhead.
Qed.

(** Two calls of each wrapper on the same arguments. *)
Lemma wrappers_memoize_witness :
  let traceC := calls computeArgsEqual (computeSetsOn computeOne) None 100 [args0] in
  let c := memoized computeArgsEqual (computeSetsOn computeOne)
                    (cellAfter None traceC) args0 (heapAfter 100 traceC) in
  observed (returned c) = inr oneSet /\ invoked c = false.
Proof.
  destruct (wrappers_memoize computeOne filterAll 100 [args0] args0 [] filterArgs0)
    as (Hc & _ & Hinv & _).
  - intros a b _ _ _. reflexivity.
  - intros a b [<-|[]] [<-|[]] _. reflexivity.
  - intros traceC c. split; [exact Hc | exact Hinv].
Defined.

(** [computeSets] throws at the first call; the second call, on the very
    arguments of the first, reaches the function again. *)
Lemma wrapper_calls_again_after_throw :
  let trace := calls computeArgsEqual (computeSetsOn computeThrows) None 100 [args0] in
  let c := memoized computeArgsEqual (computeSetsOn computeThrows)
                    (cellAfter None trace) args0 (heapAfter 100 trace) in
  latestCall trace = Some args0 /\
  computeArgsEqual args0 args0 = true /\
  invoked c = true.
Proof. vm_compute. auto. Qed.


(** [computeSets] throws in a first render; a second render with the
    same props and the same state calls it again, on the inputs of the
    call that threw. *)
Lemma render_retries_after_failure :
  let env1 := renders computeThrows filterAll [(props0, state0)] (newEnv 100) in
  let env2 := snd (render computeThrows filterAll props0 state0 env1) in
  threwIn (newEnv 100) env1 /\
  invocations env1 = [ComputeSetsCalled args0 false] /\
  invocations env2 = invocations env1 ++ [ComputeSetsCalled args0 false].
Proof.
  split; [|split].
  - exists [ComputeSetsCalled args0 false]. split; [vm_compute; reflexivity|].
    left. exists args0. simpl. auto.
  - vm_compute. reflexivity.
  - vm_compute. reflexivity.
Qed.

End ScenarioFacts.

(** ** More on the items selector *)

Module SelectorMore.
Import Selector SelectorFacts.

(** X1. The list the selector builds at a class key, bucket hash and
    item hash holds the items it files there in the order of the stores
    and, within a store, of its items, one entry for each occurrence:
    nothing is reordered and no duplicate is dropped. *)
Theorem itemsSelector_keeps_order stores c b h :
  grouped (itemsSelector stores) c b h =
  List.filter (pushedAt c b h) (allItems stores).
Proof. apply grouped_itemsSelector. Qed.

(** X2. The selector over two lists of stores, one after the other,
    appends group by group what it builds over each. *)
Theorem itemsSelector_app stores1 stores2 c b h :
  grouped (itemsSelector (stores1 ++ stores2)) c b h =
  grouped (itemsSelector stores1) c b h ++ grouped (itemsSelector stores2) c b h.
Proof.
  rewrite !grouped_itemsSelector. unfold allItems.
  rewrite flat_map_app, List.filter_app. reflexivity.
Qed.

Lemma addItem_excluded (items : ItemsByClass) entry :
  match entry with Some item => included item = false | None => True end ->
  addItem items entry = items.
Proof.
  destruct entry as [item|]; simpl; [|reflexivity].
  intros ->. reflexivity.
Qed.

Lemma addItems_excluded entries : forall (items : ItemsByClass),
  (forall item, In (Some item) entries -> included item = false) ->
  fold_left addItem entries items = items.
Proof.
  induction entries as [|entry entries IH]; intros items H; simpl; [reflexivity|].
  rewrite addItem_excluded.
  - apply IH. intros item Hin. apply H. simpl. auto.
  - destruct entry as [item|]; [|exact I]. apply H. simpl. auto.
Qed.

(** X3. When no store holds a Destiny 2 item with sockets in an armor
    bucket or in the ghost bucket, the selector returns the empty
    object: no class key at all.  Null entries and empty stores are
    passed over. *)
Theorem itemsSelector_nothing_to_keep stores
    (Hnone : forall store item,
       In store stores -> In (Some item) (store_items store) ->
       included item = false) :
  itemsSelector stores = ∅.
Proof.
  unfold itemsSelector.
  assert (H : forall (items : ItemsByClass),
    fold_left (fun items store => fold_left addItem (store_items store) items)
              stores items = items).
  { induction stores as [|store stores IH]; intros items; simpl; [reflexivity|].
    rewrite addItems_excluded.
    - apply IH. intros st item Hst. apply Hnone. simpl. auto.
    - intros item Hin. apply (Hnone store item); simpl; auto. }
  apply H.
Qed.

(** The class keys after one push. *)
Lemma present_pushItem item (items : ItemsByClass) ct c :
  is_Some (pushItem item items ct !! c) <->
  is_Some (items !! c) \/ c = classKey ct.
Proof.
  unfold pushItem. destruct (decide (c = classKey ct)) as [->|Hne].
  - rewrite lookup_insert_eq. split; [auto | intros _; eauto].
  - rewrite lookup_insert_ne by congruence. intuition.
Qed.

Lemma present_pushes item cts : forall (items : ItemsByClass) c,
  is_Some (fold_left (pushItem item) cts items !! c) <->
  is_Some (items !! c) \/ exists ct, In ct cts /\ c = classKey ct.
Proof.
  induction cts as [|ct cts IH]; intros items c; simpl.
  - split; [auto | intros [H|[ct [[] _]]]; exact H].
  - rewrite IH, present_pushItem. split.
    + intros [[H|H]|[d [Hd Hc]]]; eauto.
    + intros [H|[d [[ <- | Hd] Hc]]]; eauto.
Qed.

Lemma filedUnder_targets ct c :
  filedUnder ct c <-> exists d, In d (classTargets ct) /\ c = classKey d.
Proof. destruct ct; simpl; naive_solver. Qed.

Lemma present_addItem (items : ItemsByClass) entry c :
  is_Some (addItem items entry !! c) <->
  is_Some (items !! c) \/
  exists item, entry = Some item /\ included item = true /\
               filedUnder (item_classType item) c.
Proof.
  destruct entry as [item|]; simpl.
  - destruct (included item) eqn:Hinc.
    + rewrite present_pushes, <- filedUnder_targets. split.
      * intros [H|H]; eauto.
      * intros [H|[i [[= <-] [_ H]]]]; auto.
    + split; [auto | intros [H|[i [[= <-] [H _]]]]; [exact H | congruence]].
  - split; [auto | intros [H|[i [[=] _]]]; exact H].
Qed.

Lemma present_addItems entries : forall (items : ItemsByClass) c,
  is_Some (fold_left addItem entries items !! c) <->
  is_Some (items !! c) \/
  exists item, In (Some item) entries /\ included item = true /\
               filedUnder (item_classType item) c.
Proof.
  induction entries as [|entry entries IH]; intros items c; simpl.
  - split; [auto | intros [H|[i [[] _]]]; exact H].
  - rewrite IH, present_addItem. split.
    + intros [[H|[i [-> H]]]|[i [Hin H]]]; eauto 6.
    + intros [H|[i [[ -> | Hin] H]]]; eauto 6.
Qed.

Lemma present_stores stores : forall (items : ItemsByClass) c,
  is_Some (fold_left (fun items store => fold_left addItem (store_items store) items)
                     stores items !! c) <->
  is_Some (items !! c) \/
  exists store item, In store stores /\ In (Some item) (store_items store) /\
                     included item = true /\ filedUnder (item_classType item) c.
Proof.
  induction stores as [|store stores IH]; intros items c; simpl.
  - split; [auto | intros [H|[s [i [[] _]]]]; exact H].
  - rewrite IH, present_addItems. split.
    + intros [[H|[i [Hin H]]]|[s [i [Hs H]]]]; eauto 8.
    + intros [H|[s [i [[ <- | Hs] H]]]]; eauto 8.
Qed.

(** The class keys of the grouped items. *)
Lemma itemsSelector_present stores c :
  is_Some (itemsSelector stores !! c) <->
  exists store item, In store stores /\ In (Some item) (store_items store) /\
                     included item = true /\ filedUnder (item_classType item) c.
Proof.
  unfold itemsSelector. rewrite present_stores, lookup_empty. split.
  - intros [[x Hx]|H]; [discriminate Hx | exact H].
  - auto.
Qed.

(** X4. The selector creates the group of a class exactly when some
    store holds an item it keeps that is filed under that class: an item
    of that class, or an item of class Unknown for Hunter, Titan and
    Warlock.  It never creates a group for the class Unknown itself. *)
Theorem itemsSelector_class_groups stores c :
  (is_Some (itemsSelector stores !! c) <->
   exists store item, In store stores /\ In (Some item) (store_items store) /\
                      included item = true /\ filedUnder (item_classType item) c) /\
  itemsSelector stores !! classKey Unknown = None.
Proof.
  split; [apply itemsSelector_present|].
  apply eq_None_not_Some. rewrite itemsSelector_present.
  intros (store & item & _ & _ & _ & Hf).
  destruct (item_classType item); simpl in Hf; intuition discriminate.
Qed.

End SelectorMore.

(** ** More on the handlers *)

Section HandlerMore.

Variable props : Props.

(** X5. Besides what C2 lists, [onCharacterChanged] puts the perk
    requirement back to true and the minimum power back to 0, from
    every prior state and for every id; the selection becomes what
    [find] returns on [props.stores], which is [undefined] when no store
    has the id. *)
Theorem onCharacterChanged_perks_power_selection mode storeId s heap :
  let s' := this_state (dispatch (onCharacterChanged props mode storeId) s heap) in
  requirePerks s' = true /\
  minimumPower s' = 0 /\
  selectedStore s' = findById storeId (stores props) /\
  ((forall store, In store (stores props) -> store_id store <> storeId) ->
   selectedStore s' = None).
Proof.
  intros s'. subst s'. rewrite dispatch_onCharacterChanged. simpl.
  repeat split. intros Hnone.
  destruct (findById storeId (stores props)) as [sel|] eqn:Hf; [|reflexivity].
  apply findById_Some in Hf as [Hin Hid]. destruct (Hnone sel Hin Hid).
Qed.


(** X7. [updateLockedArmor] leaves, once applied, a locked map that
    holds the given list at the hash of the bucket and what it held
    before at every other hash; it is a new object, and no other field
    of the state changes. *)
Theorem updateLockedArmor_sets mode bucket locked s heap :
  let s' := this_state (dispatch (updateLockedArmor mode bucket locked) s heap) in
  deref (lockedMap s') !! bucket_hash bucket = Some locked /\
  (forall b, b <> bucket_hash bucket ->
             deref (lockedMap s') !! b = deref (lockedMap s) !! b) /\
  addr (lockedMap s') = heap /\
  s' = merge s (mkUpdate None (Some (lockedMap s')) None None None None None).
Proof.
  intros s'. subst s'. destruct mode; simpl.
  - split; [apply lookup_insert_eq|]. split.
    + intros b Hb. apply lookup_insert_ne. congruence.
    + split; reflexivity.
  - split; [apply lookup_insert_eq|]. split.
    + intros b Hb. apply lookup_insert_ne. congruence.
    + split; reflexivity.
Qed.

(** X8. Two [updateLockedArmor] calls in one batch are both applied, the
    second on the result of the first: the function form of [setState]
    reads the locked map that the earlier update left, not the one of
    [this.state]. *)
Theorem updateLockedArmor_twice bucket1 locked1 bucket2 locked2 s heap :
  let s' := this_state
              (dispatch (fun c => updateLockedArmor Batched bucket2 locked2
                                    (updateLockedArmor Batched bucket1 locked1 c))
                        s heap) in
  deref (lockedMap s') =
    <[bucket_hash bucket2 := locked2]>
      (<[bucket_hash bucket1 := locked1]> (deref (lockedMap s))) /\
  (bucket_hash bucket1 <> bucket_hash bucket2 ->
   deref (lockedMap s') !! bucket_hash bucket1 = Some locked1 /\
   deref (lockedMap s') !! bucket_hash bucket2 = Some locked2).
Proof.
  intros s'. subst s'. simpl. split; [reflexivity|].
  intros Hne. split.
  - rewrite lookup_insert_ne by congruence. apply lookup_insert_eq.
  - apply lookup_insert_eq.
Qed.

(** X9. When React defers the updates of the stream callback (a
    snapshot delivered inside a batch) and a character is selected, the
    store selected afterwards is the store of the snapshot with the id
    of the store selected before, none when the snapshot has no store
    with that id, and the other six fields of the state are unchanged. *)
Theorem deliver_batched_keeps_selection snapshot s heap sel
    (Hsel : selectedStore s = Some sel) :
  let s' := deliver props Batched (Some snapshot) s heap in
  selectedStore s' = findById (store_id sel) snapshot /\
  ((forall store, In store snapshot -> store_id store <> store_id sel) ->
   selectedStore s' = None) /\
  lockedMap s' = lockedMap s /\ statFilters s' = statFilters s /\
  minimumPower s' = minimumPower s /\ requirePerks s' = requirePerks s /\
  query s' = query s /\ statOrder s' = statOrder s.
Proof.
  intros s'. subst s'. rewrite (deliver_batched props snapshot s heap sel Hsel).
  simpl. repeat split. intros Hnone.
  destruct (findById (store_id sel) snapshot) as [st|] eqn:Hf; [|reflexivity].
  apply findById_Some in Hf as [Hin Hid]. destruct (Hnone st Hin Hid).
Qed.

(** X10. The first snapshot, delivered inside a batch while nothing is
    selected: the callback hands the id of the current store of the
    snapshot to [onCharacterChanged], so the store selected afterwards
    is the one [props.stores] has under that id (not the store of the
    snapshot), and locked items, perk requirement, stat filters and
    minimum power are at their defaults. *)
Theorem deliver_first_snapshot snapshot s heap cur
    (Hnone : selectedStore s = None)
    (Hcur : findCurrent snapshot = Some cur) :
  let s' := deliver props Batched (Some snapshot) s heap in
  selectedStore s' = findById (store_id cur) (stores props) /\
  deref (lockedMap s') = ∅ /\
  deref (statFilters s') = defaultStatFilters /\
  requirePerks s' = true /\ minimumPower s' = 0 /\
  query s' = query s /\ statOrder s' = statOrder s.
Proof.
  intros s'. subst s'. unfold deliver, dispatch, onStores. simpl.
  rewrite Hnone, Hcur. simpl. repeat split.
Qed.

(** X11. A snapshot that is not null and has no current store makes the
    callback throw on reading [id] of [undefined] whenever the check
    [!this.state.selectedStore] succeeds: when nothing was selected, and
    also, when React applies updates at once, with a character
    selected, because the first [setState] has cleared the selection.
    The state is left with no store selected and nothing else changed. *)
Theorem onStores_without_current_throws mode snapshot s heap
    (Hcur : findCurrent snapshot = None)
    (Hcheck : mode = Immediate \/ selectedStore s = None) :
  let out := onStores props mode (Some snapshot) (idle s heap) in
  snd out = Some (typeError "id") /\
  this_state (flush (fst out)) = selecting s None.
Proof.
  unfold onStores. rewrite Hcur.
  destruct Hcheck as [->|Hnone].
  - simpl. split; reflexivity.
  - destruct mode; simpl; rewrite ?Hnone; simpl; split; reflexivity.
Qed.

End HandlerMore.

(** ** The state over the events of a mounted instance *)

Ltac keeps_wellFormed Hw He :=
  unfold wellFormed in *; simpl;
  let Hf := fresh "Hf" in
  let Ho := fresh "Ho" in
  destruct Hw as [Hf Ho];
  split;
  [ intros ?; first [ apply Hf | apply rangeOk_default | apply He ]
  | first [ exact Ho | exact He ] ].

Ltac split_matches :=
  repeat match goal with
         | |- context [match ?x with _ => _ end] => destruct x eqn:?; simpl
         end.

Section EventsKeep.

Lemma settled_step w e : payloadOk e -> settled w -> settled (step w e).
Proof.
  destruct w as [[props [s q h] sub] strm]. unfold settled. simpl.
  intros He [-> Hw].
  destruct e; simpl in *;
    try solve [split; [reflexivity | keeps_wellFormed Hw He]].
  - (* the stream callback *)
    destruct sub as [sub|]; [|simpl; auto].
    case_bool_decide; simpl; [|auto].
    destruct mode, snapshot as [snapshot|]; simpl; split_matches;
      (split; [reflexivity | keeps_wellFormed Hw He]).
  - destruct sub; simpl; auto.
Qed.

Lemma settled_events events : forall w,
  Forall payloadOk events -> settled w -> settled (fold_left step events w).
Proof.
  induction events as [|e events IH]; intros w He Hw; simpl; [exact Hw|].
  apply Forall_cons in He as [He Hes].
  apply IH; [exact Hes|]. apply settled_step; assumption.
Qed.

(** X12. Through the life of a mounted instance, whatever the events
    and however the stream callback is run, every stat filter stays an
    inclusive range within 0 to 10 and the stat order a duplicate-free
    permutation of the three stats, as long as the values that
    [onStatFiltersChanged] and [onStatOrderChanged] receive are: no
    other handler, nor the stream callback, writes a range or an order
    that is not well formed. *)
Theorem wellFormed_through_events props heap events stream
    (Hpayload : Forall payloadOk events) :
  wellFormed (stateAfter props heap events stream).
Proof.
  unfold stateAfter.
  assert (H : settled (componentDidMount (instantiate props heap, stream))).
  { split; [reflexivity|]. simpl. split; simpl.
    - apply rangeOk_default.
    - apply orderOk_initial. }
  apply (settled_events events _ Hpayload H).
Qed.

End EventsKeep.

(** ** Which events write which field *)

(** X19. On a mounted instance the selected store is written by the
    stream callback and by [onCharacterChanged] only, the query string
    by [onQueryChanged] only and the stat order by [onStatOrderChanged]
    only: every other event, the stream callback included for the last
    two and in either mode, leaves them as they were. *)
Theorem events_frame comp stream e
    (Hidle : pending (cell comp) = []) :
  let s := this_state (cell comp) in
  let s' := this_state (cell (fst (step (comp, stream) e))) in
  (writesSelection e = false -> selectedStore s' = selectedStore s) /\
  (writesQuery e = false -> query s' = query s) /\
  (writesStatOrder e = false -> statOrder s' = statOrder s).
Proof.
  destruct comp as [props [s q h] sub]. simpl in Hidle. subst q. simpl.
  destruct e; simpl;
    try solve [repeat split; intros; first [discriminate | reflexivity]].
  - (* the stream callback *)
    destruct sub as [sub|]; [|simpl; auto].
    case_bool_decide; simpl; [|auto].
    split; [discriminate|].
    destruct mode, snapshot as [snapshot|]; simpl; split_matches;
      split; reflexivity.
  - destruct sub; simpl; auto.
Qed.

(** ** More on render *)

(** A wrapper that remembers arguments equal to the new ones answers
    with the result it remembers and calls nothing. *)
Lemma memoized_hit {A R : Type} (isEqual : A -> A -> bool) (resultFn : A -> Error + R)
    (cell : MemoCell A R) a heap b r :
  cell = Some (b, r) -> isEqual a b = true ->
  memoized isEqual resultFn cell a heap = mkCalled (inr r) cell heap false.
Proof. intros -> H. unfold memoized. rewrite H. reflexivity. Qed.

(** A wrapper that remembers other arguments calls the function. *)
Lemma memoized_miss {A R : Type} (isEqual : A -> A -> bool) (resultFn : A -> Error + R)
    (cell : MemoCell A R) a heap b r :
  cell = Some (b, r) -> isEqual a b = false ->
  memoized isEqual resultFn cell a heap = callThrough resultFn cell a heap.
Proof. intros -> H. unfold memoized. rewrite H. reflexivity. Qed.

Section RenderMore.

Variable computeSets : ComputeSets.
Variable filterGeneratedSets : FilterGeneratedSets.


(** How [render] unfolds past its guards. *)
Lemma render_past_guards props state env store defs0 byBucket :
  storesLoaded props = true -> defs props = Some defs0 ->
  storeOf props state = Some store ->
  deref (items props) !! classKey (store_classType store) = Some byBucket ->
  render computeSets filterGeneratedSets props state env =
  (inr (page props state store defs0 (attempt computeSets filterGeneratedSets props state store env)),
   env_after (attempt computeSets filterGeneratedSets props state store env)).
Proof. intros H1 H2 H3 H4. unfold render. rewrite H1, H2, H3, H4. reflexivity. Qed.


Lemma console_grows (log : list Error) e : log ++ [e] <> log.
Proof.
  intros H. apply (f_equal (@length Error)) in H.
  rewrite length_app in H. simpl in H. lia.
Qed.

(** A [try] statement in which nothing threw leaves both wrappers
    remembering a call, with arguments that [===] takes for those of
    this render, and its two results are what they remember. *)
Lemma attempt_remembers props state store env :
  processError (attempt computeSets filterGeneratedSets props state store env) = None ->
  exists b r b' r',
    attempt computeSets filterGeneratedSets props state store env =
      mkAttempt (deref r) (deref r') None
                (env_after (attempt computeSets filterGeneratedSets props state store env)) /\
    console (env_after (attempt computeSets filterGeneratedSets props state store env)) = console env /\
    computeSetsMemoized (env_after (attempt computeSets filterGeneratedSets props state store env)) = Some (b, r) /\
    computeArgsEqual (computeArgsOf props state store) b = true /\
    filterSetsMemoized (env_after (attempt computeSets filterGeneratedSets props state store env)) = Some (b', r') /\
    filterArgsEqual (filterArgsOf state r) b' = true.
Proof.
  unfold attempt, noteCompute, noteFilter.
  destruct (memoized_cases computeArgsEqual (computeSetsOn computeSets)
              (computeSetsMemoized env) (computeArgsOf props state store) (env_heap env))
    as [b r Hcell Heq | e Hmiss Hfa | v Hmiss Hfa]; simpl.
  - destruct (memoized_cases filterArgsEqual (filterGeneratedSetsOn filterGeneratedSets)
                (filterSetsMemoized env) (filterArgsOf state r) (env_heap env))
      as [b' r' Hcell' Heq' | e Hmiss' Hfa' | v Hmiss' Hfa']; simpl;
      intros Herr; try discriminate Herr.
    + exists b, r, b', r'. repeat split; auto.
    + eexists b, r, _, _. repeat split; eauto using filterArgsEqual_refl.
  - discriminate.
  - destruct (memoized_cases filterArgsEqual (filterGeneratedSetsOn filterGeneratedSets)
                (filterSetsMemoized env)
                (filterArgsOf state (mkRef (env_heap env) v)) (Pos.succ (env_heap env)))
      as [b' r' Hcell' Heq' | e Hmiss' Hfa' | v' Hmiss' Hfa']; simpl;
      intros Herr; try discriminate Herr.
    + eexists _, _, b', r'. repeat split; eauto using computeArgsEqual_refl.
    + eexists _, _, _, _.
      repeat split; eauto using computeArgsEqual_refl, filterArgsEqual_refl.
Qed.

(** The [try] statement when the compute wrapper answers from what it
    remembers. *)
Lemma attempt_compute_hit props state store env b r :
  computeSetsMemoized env = Some (b, r) ->
  computeArgsEqual (computeArgsOf props state store) b = true ->
  let f := memoized filterArgsEqual (filterGeneratedSetsOn filterGeneratedSets)
                    (filterSetsMemoized env) (filterArgsOf state r) (env_heap env) in
  invocations (env_after (attempt computeSets filterGeneratedSets props state store env)) =
    invocations env ++ noteFilter f (filterArgsOf state r) /\
  processedSets (attempt computeSets filterGeneratedSets props state store env) = deref r.
Proof.
  intros Hc Heq f. subst f. unfold attempt, noteCompute.
  rewrite (memoized_hit _ _ _ _ _ b r Hc Heq). simpl. rewrite app_nil_r.
  destruct (returned _); simpl; auto.
Qed.

(** The [try] statement when both wrappers answer from what they
    remember: nothing is called, nothing changes. *)
Lemma attempt_both_hit props state store env b r b' r' :
  computeSetsMemoized env = Some (b, r) ->
  computeArgsEqual (computeArgsOf props state store) b = true ->
  filterSetsMemoized env = Some (b', r') ->
  filterArgsEqual (filterArgsOf state r) b' = true ->
  attempt computeSets filterGeneratedSets props state store env = mkAttempt (deref r) (deref r') None env.
Proof.
  intros Hc Heq Hf Heq'. unfold attempt, noteCompute, noteFilter.
  rewrite (memoized_hit _ _ _ _ _ b r Hc Heq). simpl.
  rewrite (memoized_hit _ _ _ _ _ b' r' Hf Heq'). simpl.
  rewrite !app_nil_r. destruct env; reflexivity.
Qed.

(** The [try] statement when the compute wrapper remembers other
    arguments: the call of [computeSets] is the first it records. *)
Lemma attempt_compute_miss props state store env b r :
  computeSetsMemoized env = Some (b, r) ->
  computeArgsEqual (computeArgsOf props state store) b = false ->
  exists rest,
    invocations (env_after (attempt computeSets filterGeneratedSets props state store env)) =
    invocations env ++
    ComputeSetsCalled (computeArgsOf props state store)
      (returns (computeSetsOn computeSets (computeArgsOf props state store)))
    :: rest.
Proof.
  intros Hc Hne. unfold attempt, noteCompute.
  rewrite (memoized_miss _ _ _ _ _ b r Hc Hne). unfold callThrough.
  destruct (computeSetsOn computeSets (computeArgsOf props state store)); simpl.
  - exists []. reflexivity.
  - destruct (returned _); simpl; rewrite <- app_assoc; eexists; reflexivity.
Qed.

(** What the console holds after the [try] statement. *)
Lemma attempt_console props state store env :
  console (env_after (attempt computeSets filterGeneratedSets props state store env)) =
  console env ++
  match processError (attempt computeSets filterGeneratedSets props state store env) with
  | Some e => [e]
  | None => []
  end.
Proof.
  unfold attempt.
  destruct (returned (memoized computeArgsEqual _ _ _ _)); simpl; [reflexivity|].
  destruct (returned (memoized filterArgsEqual _ _ _ _)); simpl;
    rewrite ?app_nil_r; reflexivity.
Qed.

(** A render that returned a page without the error panel got past the
    guards, and nothing threw in its [try] statement. *)
Lemma render_errorFree props state env view :
  fst (render computeSets filterGeneratedSets props state env) = inr view -> errorFree view ->
  exists store defs0 byBucket,
    storesLoaded props = true /\ defs props = Some defs0 /\
    storeOf props state = Some store /\
    deref (items props) !! classKey (store_classType store) = Some byBucket /\
    processError (attempt computeSets filterGeneratedSets props state store env) = None.
Proof.
  unfold render.
  destruct (storesLoaded props); [|intros [= <-] []].
  destruct (defs props) as [defs0|]; [|intros [= <-] []].
  destruct (storeOf props state) as [store|]; [|discriminate].
  destruct (deref (items props) !! classKey (store_classType store))
    as [byBucket|] eqn:Hg; [|intros [= <-] []].
  simpl. intros [= <-] Hok. exists store, defs0, byBucket.
  repeat split; auto.
  unfold errorFree, page, contents in Hok. simpl in Hok.
  destruct (processError _); [destruct Hok | reflexivity].
Qed.

(** X14. The error panel is rendered only for an exception of this
    render: when the contents area is the error panel, one of the two
    computations threw in this render, the exception is the last entry
    of the console, and the panel shows its message under the title
    key.  A failure of an earlier render is not shown again unless the
    computation fails again. *)
Theorem error_panel_only_on_failure props state env view title msg
    (Hview : fst (render computeSets filterGeneratedSets props state env) = inr view)
    (Hpanel : contentsOf view = Some (ErrorPanel title msg)) :
  threwIn env (snd (render computeSets filterGeneratedSets props state env)) /\
  exists e,
    console (snd (render computeSets filterGeneratedSets props state env)) = console env ++ [e] /\
    title = "ErrorBoundary.Title"%string /\ msg = message e.
Proof.
  revert Hview Hpanel. unfold render.
  destruct (storesLoaded props); [|intros [= <-]; discriminate].
  destruct (defs props) as [defs0|]; [|intros [= <-]; discriminate].
  destruct (storeOf props state) as [store|]; [|discriminate].
  destruct (deref (items props) !! classKey (store_classType store));
    [|intros [= <-]; discriminate].
  simpl. intros [= <-]. unfold page, contents, attempt, noteCompute, noteFilter.
  simpl.
  destruct (memoized_cases computeArgsEqual (computeSetsOn computeSets)
              (computeSetsMemoized env) (computeArgsOf props state store) (env_heap env))
    as [b r Hcell Heq | e Hmiss Hfa | v Hmiss Hfa]; simpl.
  - destruct (memoized_cases filterArgsEqual (filterGeneratedSetsOn filterGeneratedSets)
                (filterSetsMemoized env) (filterArgsOf state r) (env_heap env))
      as [b' r' Hcell' Heq' | e Hmiss' Hfa' | v Hmiss' Hfa']; simpl.
    + destruct (_ && _)%bool; discriminate.
    + intros [= <- <-]. split; [|eauto].
      eexists. split; [rewrite <- app_assoc; reflexivity|].
      right. eexists. simpl. eauto.
    + destruct (_ && _)%bool; discriminate.
  - intros [= <- <-]. split; [|eauto].
    eexists. split; [reflexivity|]. left. eexists. simpl. eauto.
  - destruct (memoized_cases filterArgsEqual (filterGeneratedSetsOn filterGeneratedSets)
                (filterSetsMemoized env)
                (filterArgsOf state (mkRef (env_heap env) v)) (Pos.succ (env_heap env)))
      as [b' r' Hcell' Heq' | e Hmiss' Hfa' | v' Hmiss' Hfa']; simpl.
    + destruct (_ && _)%bool; discriminate.
    + intros [= <- <-]. split; [|eauto].
      eexists. split; [rewrite <- app_assoc; reflexivity|].
      right. eexists. simpl. eauto.
    + destruct (_ && _)%bool; discriminate.
Qed.

(** X15. A render that logged no error is a fixed point: a second
    render with the same props and the same state calls neither
    [computeSets] nor [filterGeneratedSets], returns the same output
    and leaves the wrappers, the heap, the console and the record of
    calls as the first render left them. *)
Theorem rerender_unchanged props state env
    (Hquiet : console (snd (render computeSets filterGeneratedSets props state env)) = console env) :
  render computeSets filterGeneratedSets props state (snd (render computeSets filterGeneratedSets props state env)) =
  render computeSets filterGeneratedSets props state env.
Proof.
  revert Hquiet. unfold render.
  destruct (storesLoaded props); [|reflexivity].
  destruct (defs props) as [defs0|]; [|reflexivity].
  destruct (storeOf props state) as [store|]; [|reflexivity].
  destruct (deref (items props) !! classKey (store_classType store));
    [|reflexivity].
  simpl. rewrite attempt_console. intros Hquiet.
  assert (Herr : processError (attempt computeSets filterGeneratedSets props state store env) = None).
  { destruct (processError _) as [e|]; [|reflexivity].
    destruct (console_grows _ _ Hquiet). }
  destruct (attempt_remembers props state store env Herr)
    as (b & r & b' & r' & Hfirst & _ & Hc & Heq & Hf & Heq').
  rewrite (attempt_both_hit props state store _ b r b' r' Hc Heq Hf Heq').
  rewrite Hfirst at 2 3. reflexivity.
Qed.

Lemma filterArgsEqual_inputs s2 s1 r :
  filterArgsEqual (filterArgsOf s2 r) (filterArgsOf s1 r) = filterInputsEqual s2 s1.
Proof.
  unfold filterArgsEqual, filterInputsEqual, sameRef. simpl.
  rewrite Pos.eqb_refl. reflexivity.
Qed.

Lemma filterArgsEqual_through a b c :
  filterArgsEqual b c = true -> filterArgsEqual a c = filterArgsEqual a b.
Proof.
  intros Hbc. apply Bool.eq_iff_eq_true. split; intros H.
  - apply (filterArgsEqual_trans a c b); [exact H|].
    rewrite filterArgsEqual_sym. exact Hbc.
  - apply (filterArgsEqual_trans a b c); assumption.
Qed.

(** X16. After a render that showed no error, a render whose inputs of
    [computeSets] are the same by reference does not call [computeSets]
    again; it calls [filterGeneratedSets], once, exactly when the
    minimum power, the locked map, the stat filters or the stat order
    of the new state differ by reference from those of the earlier one. *)
Theorem rerender_calls_filter_only props1 state1 env view1 props2 state2
    store1 store2
    (Hview : fst (render computeSets filterGeneratedSets props1 state1 env) = inr view1)
    (Hok : errorFree view1)
    (Hstore1 : storeOf props1 state1 = Some store1)
    (Hstore2 : storeOf props2 state2 = Some store2)
    (Hloaded : storesLoaded props2 = true)
    (Hdefs : is_Some (defs props2))
    (Hgroup : is_Some (deref (items props2) !! classKey (store_classType store2)))
    (Hsame : computeArgsEqual (computeArgsOf props2 state2 store2)
                              (computeArgsOf props1 state1 store1) = true) :
  let env1 := snd (render computeSets filterGeneratedSets props1 state1 env) in
  let env2 := snd (render computeSets filterGeneratedSets props2 state2 env1) in
  exists delta,
    invocations env2 = invocations env1 ++ delta /\
    if filterInputsEqual state2 state1
    then delta = []
    else exists a ok, delta = [FilterGeneratedSetsCalled a ok] /\
           arg_minimumPower a = minimumPower state2 /\
           arg_locked a = lockedMap state2 /\
           arg_statFilters a = statFilters state2 /\
           arg_statOrder a = statOrder state2.
Proof.
  intros env1 env2. subst env1 env2.
  destruct (render_errorFree _ _ _ _ Hview Hok)
    as (st & defs1 & byBucket1 & Hl1 & Hd1 & Hs1 & Hg1 & Herr).
  rewrite Hstore1 in Hs1. injection Hs1 as <-.
  destruct Hdefs as [defs2 Hd2]. destruct Hgroup as [byBucket2 Hg2].
  rewrite (render_past_guards _ _ _ _ _ _ Hl1 Hd1 Hstore1 Hg1). simpl.
  rewrite (render_past_guards _ _ _ _ _ _ Hloaded Hd2 Hstore2 Hg2). simpl.
  destruct (attempt_remembers props1 state1 store1 env Herr)
    as (b & r & b' & r' & _ & _ & Hc & Heq & Hf & Heq').
  assert (Hhit : computeArgsEqual (computeArgsOf props2 state2 store2) b = true).
  { apply (computeArgsEqual_trans _ _ _ Hsame Heq). }
  destruct (attempt_compute_hit props2 state2 store2 _ b r Hc Hhit) as [Hinv _].
  rewrite Hinv. eexists. split; [reflexivity|].
  rewrite <- (filterArgsEqual_inputs state2 state1 r).
  rewrite <- (filterArgsEqual_through _ _ _ Heq').
  unfold noteFilter.
  destruct (filterArgsEqual (filterArgsOf state2 r) b') eqn:Hb'.
  - rewrite (memoized_hit _ _ _ _ _ b' r' Hf Hb'). reflexivity.
  - rewrite (memoized_miss _ _ _ _ _ b' r' Hf Hb').
    rewrite callThrough_invoked. eexists _, _. repeat split.
Qed.

(** X17. Relaxing the perk requirement triggers a fresh computation:
    after a render that showed no error while perks were required, the
    render that follows [setRequiredPerks] calls [computeSets], with
    the perk flag false, before anything else. *)
Theorem relaxing_perks_recomputes props state env view1 mode heap
    (Hview : fst (render computeSets filterGeneratedSets props state env) = inr view1)
    (Hok : errorFree view1)
    (Hperks : requirePerks state = true) :
  let env1 := snd (render computeSets filterGeneratedSets props state env) in
  let state2 := this_state (dispatch (setRequiredPerks mode) state heap) in
  let env2 := snd (render computeSets filterGeneratedSets props state2 env1) in
  exists store ok rest,
    storeOf props state2 = Some store /\
    arg_requirePerks (computeArgsOf props state2 store) = false /\
    invocations env2 =
      invocations env1 ++
      ComputeSetsCalled (computeArgsOf props state2 store) ok :: rest.
Proof.
  intros env1 state2 env2. subst env1 state2 env2.
  unfold setRequiredPerks. rewrite dispatch_setState.
  destruct (render_errorFree _ _ _ _ Hview Hok)
    as (store & defs1 & byBucket1 & Hl1 & Hd1 & Hs1 & Hg1 & Herr).
  set (state2 := merge state _).
  assert (Hs2 : storeOf props state2 = Some store) by exact Hs1.
  rewrite (render_past_guards _ _ _ _ _ _ Hl1 Hd1 Hs1 Hg1). simpl.
  rewrite (render_past_guards _ _ _ _ _ _ Hl1 Hd1 Hs2 Hg1). simpl.
  destruct (attempt_remembers props state store env Herr)
    as (b & r & b' & r' & _ & _ & Hc & Heq & _).
  assert (Hne : computeArgsEqual (computeArgsOf props state2 store) b = false).
  { apply not_true_is_false. intros H.
    apply computeArgsEqual_true in H as (_ & _ & H & _).
    apply computeArgsEqual_true in Heq as (_ & _ & H' & _).
    simpl in H, H'. congruence. }
  destruct (attempt_compute_miss props state2 store _ b r Hc Hne) as [rest Hinv].
  eexists store, _, rest. split; [exact Hs2|]. split; [reflexivity | exact Hinv].
Qed.

(** X20. A character whose class has nothing in the grouped items
    never gets past the loading view: when the items of the props are
    what the selector builds from some stores, none of which holds a
    kept item filed under the class of the store to show, [render]
    returns the loading view and computes nothing, although stores and
    definitions are loaded. *)
Theorem render_loading_without_items props state env allStores store
    (Hloaded : storesLoaded props = true)
    (Hitems : deref (items props) = Selector.itemsSelector allStores)
    (Hstore : storeOf props state = Some store)
    (Hnone : forall st item,
       In st allStores -> In (Some item) (store_items st) ->
       Selector.included item = true ->
       ~ Selector.filedUnder (item_classType item) (classKey (store_classType store))) :
  render computeSets filterGeneratedSets props state env = (inr Loading, env).
Proof.
  unfold render. rewrite Hloaded, Hstore, Hitems.
  destruct (defs props); [|reflexivity].
  destruct (Selector.itemsSelector allStores !! classKey (store_classType store))
    as [byBucket|] eqn:Hg; [|reflexivity].
  exfalso.
  assert (Hsome : is_Some (Selector.itemsSelector allStores
                             !! classKey (store_classType store))) by eauto.
  apply SelectorMore.itemsSelector_present in Hsome
    as (st & item & Hst & Hitem & Hinc & Hfiled).
  exact (Hnone st item Hst Hitem Hinc Hfiled).
Qed.

End RenderMore.

(** X18. What a render shows around the results does not depend on the
    two computations nor on what the wrappers remember: with the same
    props and state, two renders both return the loading view, or both
    throw the same exception, or both return a page with the same
    character selector and the same menu, the sets handed to
    [FilterBuilds] apart.  A failure of a computation leaves the
    selector and the filters as they are. *)
Theorem render_chrome_independent computeSets filterGeneratedSets
    computeSets' filterGeneratedSets' props state env env' :
  match fst (render computeSets filterGeneratedSets props state env),
        fst (render computeSets' filterGeneratedSets' props state env') with
  | inr v, inr v' => chrome v = chrome v' /\ (v = Loading <-> v' = Loading)
  | inl e, inl e' => e = e'
  | _, _ => False
  end.
Proof.
  unfold render.
  destruct (storesLoaded props); [|simpl; tauto].
  destruct (defs props) as [defs0|]; [|simpl; tauto].
  destruct (storeOf props state) as [store|]; [|reflexivity].
  destruct (deref (items props) !! classKey (store_classType store));
    [|simpl; tauto].
  simpl. unfold page. destruct (isPhonePortrait props); simpl.
  - split; [reflexivity|]. split; discriminate.
  - split; [reflexivity|]. split; discriminate.
Qed.

(** ** The wrappers remember one call *)

(** X21. [computeSetsMemoized] remembers one call only.  After a call
    on other arguments has returned, a call on earlier arguments calls
    [computeSets] again: going from one character to another and back
    computes the sets of the first character a second time. *)
Theorem computeSetsMemoized_remembers_one computeSets heap before a b
    (Hdiffer : computeArgsEqual a b = false)
    (Hreturns : returns (computeSetsOn computeSets b) = true) :
  let trace := calls computeArgsEqual (computeSetsOn computeSets) None heap
                     (before ++ [a; b]) in
  let c := memoized computeArgsEqual (computeSetsOn computeSets)
                    (cellAfter None trace) a (heapAfter heap trace) in
  invoked c = true.
Proof.
  intros trace c.
  destruct (memoized_call computeArgsEqual (computeSetsOn computeSets)
              computeArgsEqual_refl computeArgsEqual_sym computeArgsEqual_trans
              (before ++ [a; b]) a heap) as (_ & _ & Hinv).
  fold trace in Hinv. fold c in Hinv. rewrite Hinv.
  assert (Hlast : latestReturned trace = Some b).
  { subst trace.
    change (before ++ [a; b]) with (before ++ [a] ++ [b]).
    rewrite app_assoc, calls_snoc, latestReturned_snoc.
    set (cell := cellAfter None _). set (hp := heapAfter heap _).
    destruct (memoized_cases computeArgsEqual (computeSetsOn computeSets) cell b hp)
      as [b0 r Hcell Heq | e Hmiss Hfb | v Hmiss Hfb]; simpl; try reflexivity.
    rewrite Hfb in Hreturns. discriminate Hreturns. }
  rewrite Hlast, Hdiffer. reflexivity.
Qed.

(** ** The further accounts *)

Module VaultFacts.
Import Scenario Vault.

(** The titan's helmets of hash 1001, in the order of the inventory,
    the repeated one twice. *)
Example selector_keeps_duplicates :
  Selector.grouped (Selector.itemsSelector [titan]) 1 3448274439 1001
  = [helmet; helmet2; helmet].
Proof. vm_compute. reflexivity. Qed.

(** Neither the vault nor the lone warlock holds anything to keep. *)
Lemma itemsSelector_nothing_to_keep_witness :
  Selector.itemsSelector [vault; loneWarlock] = ∅.
Proof.
  apply SelectorMore.itemsSelector_nothing_to_keep.
  intros store item [<-|[<-|[]]]; simpl.
  - intros [[= <-]|[H|[]]]; [reflexivity | discriminate H].
  - intros [].
Defined.


(** A batched snapshot while the warlock is selected. *)
Lemma deliver_batched_keeps_selection_witness :
  selectedStore (deliver props0 Batched (Some snapshot') stateW 20) = Some warlock' /\
  query (deliver props0 Batched (Some snapshot') stateW 20) = query stateW.
Proof.
  destruct (deliver_batched_keeps_selection props0 snapshot' stateW 20 warlock)
    as (Hsel & _ & _ & _ & _ & _ & Hq & _).
  - reflexivity.
  - split; [rewrite Hsel; reflexivity | exact Hq].
Defined.

(** The first snapshot on a new instance. *)
Lemma deliver_first_snapshot_witness :
  selectedStore (deliver props0 Batched (Some snapshot') state0 20) = Some hunter /\
  requirePerks (deliver props0 Batched (Some snapshot') state0 20) = true.
Proof.
  destruct (deliver_first_snapshot props0 snapshot' state0 20 hunter')
    as (Hsel & _ & _ & Hp & _).
  - reflexivity.
  - reflexivity.
  - split; [rewrite Hsel; reflexivity | exact Hp].
Defined.

(** A snapshot with the warlock only, who is not current, applied at
    once while the warlock is selected. *)
Lemma onStores_without_current_throws_witness :
  snd (onStores props0 Immediate (Some [warlock']) (idle stateW 20))
    = Some (typeError "id").
Proof.
  destruct (onStores_without_current_throws props0 Immediate [warlock'] stateW 20)
    as [Hthrown _].
  - reflexivity.
  - left. reflexivity.
  - exact Hthrown.
Defined.

(** The session keeps ranges and order. *)
Lemma wellFormed_through_events_witness :
  wellFormed (stateAfter props0 20 session (mkStream 0 ∅)).
Proof.
  assert (Ho : orderOk [Mobility; Recovery; Resilience]).
  { split.
    - repeat constructor; rewrite ?list_elem_of_In; simpl; intuition discriminate.
    - change [Mobility; Recovery; Resilience]
        with ([Mobility] ++ [Recovery; Resilience]).
      change [Mobility; Resilience; Recovery]
        with ([Mobility] ++ [Resilience; Recovery]).
      apply Permutation_app_head. apply perm_swap. }
  apply wellFormed_through_events. unfold session.
  repeat (apply Forall_cons; split; [simpl; first [exact I | exact Ho]|]).
  constructor.
Defined.

(** A prop change on a mounted instance with nothing queued. *)
Lemma events_frame_witness :
  selectedStore
    (this_state (cell (fst (step (mkComponent props0 (idle stateW 20) (Some 0%nat),
                                  mkStream 1 {[0%nat]})
                                 (MinimumPowerChanged 750)))))
  = Some warlock.
Proof.
  destruct (events_frame (mkComponent props0 (idle stateW 20) (Some 0%nat))
              (mkStream 1 {[0%nat]}) (MinimumPowerChanged 750))
    as (Hsel & _ & _).
  - reflexivity.
  - rewrite Hsel; reflexivity.
Defined.

(** The failing render of the first account shows the panel for the
    exception of that render. *)
Lemma error_panel_only_on_failure_witness :
  threwIn (newEnv 100)
          (snd (render computeOne filterThrows props0 state0 (newEnv 100))).
Proof.
  destruct (error_panel_only_on_failure computeOne filterThrows props0 state0
              (newEnv 100)
              (page props0 state0 hunter (mkDefs 1)
                    (attempt computeOne filterThrows props0 state0 hunter (newEnv 100)))
              "ErrorBoundary.Title" "bad filter")
    as [Hthrew _].
  - vm_compute. reflexivity.
  - vm_compute. reflexivity.
  - exact Hthrew.
Defined.

(** Rendering the first account twice. *)
Lemma rerender_unchanged_witness :
  render computeOne filterAll props0 state0
         (snd (render computeOne filterAll props0 state0 (newEnv 100)))
  = render computeOne filterAll props0 state0 (newEnv 100).
Proof.
  apply rerender_unchanged. vm_compute. reflexivity.
Defined.

(** The first account rendered, then rendered again after the minimum
    power went to 750. *)
Lemma rerender_calls_filter_only_witness :
  let state2 := this_state (dispatch (onMinimumPowerChanged Batched 750) state0 20) in
  let env1 := snd (render computeOne filterAll props0 state0 (newEnv 100)) in
  let env2 := snd (render computeOne filterAll props0 state2 env1) in
  exists a ok,
    invocations env2 = invocations env1 ++ [FilterGeneratedSetsCalled a ok] /\
    arg_minimumPower a = 750.
Proof.
  intros state2 env1 env2.
  destruct (rerender_calls_filter_only computeOne filterAll props0 state0 (newEnv 100)
              (page props0 state0 hunter (mkDefs 1)
                    (attempt computeOne filterAll props0 state0 hunter (newEnv 100)))
              props0 state2 hunter hunter)
    as (delta & Hinv & Hdelta).
  - vm_compute. reflexivity.
  - vm_compute. exact I.
  - reflexivity.
  - reflexivity.
  - reflexivity.
  - exists (mkDefs 1). reflexivity.
  - exists (default ∅ (deref (items props0) !! 1)). vm_compute. reflexivity.
  - vm_compute. reflexivity.
  - change (filterInputsEqual state2 state0) with false in Hdelta.
    destruct Hdelta as (a & ok & -> & Hpower & _).
    exists a, ok. split; [exact Hinv | exact Hpower].
Defined.

(** The first account rendered, then the perk requirement relaxed. *)
Lemma relaxing_perks_recomputes_witness :
  let env1 := snd (render computeOne filterAll props0 state0 (newEnv 100)) in
  let state2 := this_state (dispatch (setRequiredPerks Batched) state0 20) in
  exists ok rest,
    invocations (snd (render computeOne filterAll props0 state2 env1)) =
    invocations env1 ++ ComputeSetsCalled (computeArgsOf props0 state2 hunter) ok :: rest.
Proof.
  intros env1 state2.
  destruct (relaxing_perks_recomputes computeOne filterAll props0 state0 (newEnv 100)
              (page props0 state0 hunter (mkDefs 1)
                    (attempt computeOne filterAll props0 state0 hunter (newEnv 100)))
              Batched 20)
    as (store & ok & rest & Hstore & _ & Hinv).
  - vm_compute. reflexivity.
  - vm_compute. exact I.
  - reflexivity.
  - assert (store = hunter) as ->
      by (change (Some hunter = Some store) in Hstore; congruence).
    exists ok, rest. exact Hinv.
Defined.

(** The lone warlock waits on the loading view. *)
Lemma render_loading_without_items_witness :
  render computeOne filterAll propsV state0 (newEnv 100) = (inr Loading, newEnv 100).
Proof.
  apply (render_loading_without_items computeOne filterAll propsV state0 (newEnv 100)
           [vault; loneWarlock] loneWarlock).
  - reflexivity.
  - reflexivity.
  - reflexivity.
  - intros st item [<-|[<-|[]]]; simpl.
    + intros [[= <-]|[H|[]]]; [discriminate | discriminate H].
    + intros [].
Defined.

(** The hunter, the warlock, the hunter again. *)
Lemma computeSetsMemoized_remembers_one_witness :
  let trace := calls computeArgsEqual (computeSetsOn computeOne) None 100
                     ([] ++ [args0; argsW]) in
  invoked (memoized computeArgsEqual (computeSetsOn computeOne)
                    (cellAfter None trace) args0 (heapAfter 100 trace)) = true.
Proof.
  apply (computeSetsMemoized_remembers_one computeOne 100 [] args0 argsW).
  - vm_compute. reflexivity.
  - reflexivity.
Defined.

End VaultFacts.
